(** * Fixed-window rate limiter: a shallow embedding of
      [server/src/middleware/rate-limiter.middleware.ts]

    The middleware keeps one process-wide [Map<string, RateLimitEntry>] and a
    factory [rateLimiter(options)] returning an Express handler
    [(req, res, next) => ...].  We embed

    - the table as a [gmap string RateLimitEntry];
    - JavaScript numbers as [Z]: [Date.now()], [windowMs], [maxRequests] and
      the counters are integers in the source's use, far below 2^53, where
      double arithmetic on them is exact (also [Math.ceil (d / 1000)] for an
      integer [d]: a quotient that is not an integer lies at least 1/1000
      away from one, more than the rounding error);
    - the handler body as a computation in a small state-and-exception monad
      over the table, the response object and the log of calls to [next],
      so that [try { ... } catch (error) { next(error) }] is modelled as it
      is written;
    - the [setInterval] callback as a fold over the table deleting entries.

    Entries are stored by value: the source mutates [entry.count] in place
    and then calls [rateLimitStore.set(key, entry)] with the same object; no
    entry object is ever shared between two keys, so value semantics loses
    nothing. *)

From stdpp Require Import gmap strings pretty fin_maps list.
From Stdlib Require Import ZArith Lia Ascii.

Local Open Scope Z_scope.

(** ** Data model *)

(** [interface RateLimitEntry { count: number; resetAt: number }] *)
Record RateLimitEntry := mkEntry { count : Z; resetAt : Z }.

(** [interface RateLimitOptions { windowMs; maxRequests; message? }] *)
Record RateLimitOptions := mkOptions {
  windowMs : Z;
  maxRequests : Z;
  message : option string
}.

(** Values that travel through [throw] and [next(err)].

    Modelled from the spec: the class [ApiError] is imported from
    [./error.middleware], which is not part of the sources at hand; the
    specification describes it as a structured error carrying a message, an
    HTTP status code and a details object, here [{ retryAfter }].
    [Thrown] stands for any other value raised by a collaborator. *)
Inductive JsError :=
| ApiError (msg : string) (statusCode : Z) (retryAfter : Z)
| Thrown (what : string).

(** What the handler reads from [req].  [req.ip] is a getter and
    [req.socket.remoteAddress] a chain of two property reads: both may yield
    a string, [undefined] ([None]) or raise. *)
Record Request := mkRequest {
  ip : JsError + option string;
  remoteAddress : JsError + option string;
  path : string
}.

(** [name.toLowerCase()] on the ASCII letters header names are made of. *)
Definition lower_ascii (a : ascii) : ascii :=
  let n := N_of_ascii a in
  if (65 <=? n)%N && (n <=? 90)%N then ascii_of_N (n + 32) else a.

Fixpoint toLowerCase (s : string) : string :=
  match s with
  | EmptyString => EmptyString
  | String a s => String (lower_ascii a) (toLowerCase s)
  end.

(** The headers of a response.  Node keeps each header under its
    lower-cased name: [hs !! name] is [res.getHeader(name)] and
    [<[name := value]> hs] the table after [res.setHeader(name, value)],
    both without regard to the case of [name]. *)
Record Headers := mkHeaders { by_lower_name : gmap string string }.

#[local] Instance Headers_empty : Empty Headers := mkHeaders ∅.

#[local] Instance Headers_lookup : Lookup string string Headers :=
  λ name hs, by_lower_name hs !! toLowerCase name.

#[local] Instance Headers_insert : Insert string string Headers :=
  λ name value hs, mkHeaders (<[toLowerCase name := value]> (by_lower_name hs)).

Arguments toLowerCase : simpl never.
Arguments Headers_lookup : simpl never.
Arguments Headers_insert : simpl never.

(** The response object as far as [res.setHeader] is concerned. *)
Record Response := mkResponse {
  headersSent : bool;
  headers : Headers
}.

(** The state a handler invocation acts on: the module-level
    [rateLimitStore], the response of the request at hand, and the
    arguments [next] has been called with ([None] for [next()]). *)
Record World := mkWorld {
  rateLimitStore : gmap string RateLimitEntry;
  res : Response;
  nextCalls : list (option JsError)
}.

(** ** A state-and-exception monad for the handler body *)

Inductive Completion (A : Type) :=
| Normal (a : A)
| Throw (e : JsError).
Arguments Normal {A} a.
Arguments Throw {A} e.

Definition M (A : Type) : Type := World → Completion A * World.

#[local] Instance M_ret : MRet M := λ A a w, (Normal a, w).
#[local] Instance M_bind : MBind M := λ A B f m w,
  match m w with
  | (Normal a, w') => f a w'
  | (Throw e, w') => (Throw e, w')
  end.

Definition throw {A} (e : JsError) : M A := λ w, (Throw e, w).

(** [try { body } catch (error) { handler(error) }] *)
Definition try_catch {A} (body : M A) (handler : JsError → M A) : M A := λ w,
  match body w with
  | (Normal a, w') => (Normal a, w')
  | (Throw e, w') => handler e w'
  end.

(** Reading a property whose getter may raise. *)
Definition read {A} (p : JsError + A) : M A :=
  match p with
  | inl e => throw e
  | inr a => mret a
  end.

(** [rateLimitStore.get(key)] *)
Definition store_get (key : string) : M (option RateLimitEntry) := λ w,
  (Normal (rateLimitStore w !! key), w).

(** [rateLimitStore.set(key, entry)] *)
Definition store_set (key : string) (entry : RateLimitEntry) : M unit := λ w,
  (Normal (), mkWorld (<[key := entry]> (rateLimitStore w)) (res w) (nextCalls w)).

(** [res.setHeader(name, value)]: Node raises [ERR_HTTP_HEADERS_SENT] once
    the header block has been flushed, otherwise records the value under
    the lower-cased name, overwriting an earlier one set under any
    spelling of that name. *)
Definition setHeader (name value : string) : M unit := λ w,
  if headersSent (res w)
  then (Throw (Thrown "ERR_HTTP_HEADERS_SENT"), w)
  else (Normal (),
        mkWorld (rateLimitStore w)
                (mkResponse false (<[name := value]> (headers (res w))))
                (nextCalls w)).

(** [next()] and [next(err)]: the collaborator is handed control; the model
    records the argument. *)
Definition next (arg : option JsError) : M unit := λ w,
  (Normal (), mkWorld (rateLimitStore w) (res w) (nextCalls w ++ [arg])).

(** ** Primitive operations *)

(** [String(n)] for an integer [n]. *)
Definition String_of_number (n : Z) : string := pretty n.

(** [Math.ceil(d / 1000)] on an integer [d]. *)
Definition ceil_div (d k : Z) : Z := - ((- d) / k).

(** JavaScript truthiness of [string | undefined], as used by [||]. *)
Definition truthy (v : option string) : bool :=
  match v with
  | Some s => negb (String.eqb s "")
  | None => false
  end.

(** [a || b] where [b] is evaluated only when [a] is falsy. *)
Definition or_else (a : option string) (b : M (option string)) : M (option string) :=
  if truthy a then mret a else b.

(** [v || d] where [d] is a string that needs no evaluation. *)
Definition or_string (v : option string) (d : string) : string :=
  match v with
  | Some s => if truthy v then s else d
  | None => d
  end.

(** [req.ip || req.socket.remoteAddress || 'unknown'] *)
Definition resolve_ip (req : Request) : M string :=
  a ← read (ip req);
  v ← or_else a (read (remoteAddress req));
  mret (or_string v "unknown").

(** [`${ip}:${req.path}`] *)
Definition make_key (ip : string) (path : string) : string :=
  ip +:+ ":" +:+ path.

(** [options.message || `Too many requests, ... ${resetInSeconds} seconds`] *)
Definition errorMessage (options : RateLimitOptions) (resetInSeconds : Z) : string :=
  or_string (message options)
    ("Too many requests, please try again in "
       +:+ String_of_number resetInSeconds +:+ " seconds").

(** ** The middleware *)

(** The body of the [try] block; [now] is the value of [Date.now()].
    [fresh] is the branch taken under [!entry || entry.resetAt <= now]; it
    ends in [return next()], so the code after it is the other branch. *)
Definition rateLimiter_body (options : RateLimitOptions) (req : Request) (now : Z)
  : M unit :=
  ip ← resolve_ip req;
  let key := make_key ip (path req) in
  entry ← store_get key;
  let fresh : M unit :=
    let entry := mkEntry 1 (now + windowMs options) in
    store_set key entry;;
    setHeader "X-RateLimit-Limit" (String_of_number (maxRequests options));;
    setHeader "X-RateLimit-Remaining" (String_of_number (maxRequests options - 1));;
    setHeader "X-RateLimit-Reset" (String_of_number (resetAt entry));;
    next None in
  match entry with
  | None => fresh
  | Some entry =>
    if resetAt entry <=? now then fresh else
    let entry := mkEntry (count entry + 1) (resetAt entry) in
    store_set key entry;;
    setHeader "X-RateLimit-Limit" (String_of_number (maxRequests options));;
    setHeader "X-RateLimit-Remaining"
      (String_of_number (Z.max 0 (maxRequests options - count entry)));;
    setHeader "X-RateLimit-Reset" (String_of_number (resetAt entry));;
    if maxRequests options <? count entry then
      let resetInSeconds := ceil_div (resetAt entry - now) 1000 in
      let rateError :=
        ApiError (errorMessage options resetInSeconds) 429 resetInSeconds in
      setHeader "Retry-After" (String_of_number resetInSeconds);;
      next (Some rateError)
    else
      next None
  end.

(** [rateLimiter(options)(req, res, next)] *)
Definition rateLimiter (options : RateLimitOptions) (req : Request) (now : Z)
  : M unit :=
  try_catch (rateLimiter_body options req now) (λ error, next (Some error)).

(** The [setInterval] callback: [forEach] over the table, deleting every
    entry with [entry.resetAt <= now] from the table being traversed. *)
Definition cleanup (now : Z) (store : gmap string RateLimitEntry)
  : gmap string RateLimitEntry :=
  map_fold (λ key entry acc, if resetAt entry <=? now then delete key acc else acc)
           store store.

(** The two exported instances. *)
Definition standardLimiter : RateLimitOptions :=
  mkOptions (60 * 1000) 60
    (Some "Too many requests from this IP, please try again after a minute").

Definition authLimiter : RateLimitOptions :=
  mkOptions (15 * 60 * 1000) 10
    (Some "Too many authentication attempts, please try again after 15 minutes").

(** ** Invocations and traces *)

(** One invocation of a limiter instance by the host: the instance's policy,
    the request, the response object as the handler receives it, and the
    clock reading. *)
Record Call := mkCall {
  limiter : RateLimitOptions;
  request : Request;
  response : Response;
  time : Z
}.

(** What the host observes of one invocation: how the handler completed,
    the response object afterwards, and the calls made to [next]. *)
Record Outcome := mkOutcome {
  completion : Completion unit;
  response_after : Response;
  next_args : list (option JsError)
}.

Definition invoke (c : Call) (store : gmap string RateLimitEntry)
  : Outcome * gmap string RateLimitEntry :=
  let '(r, w) := rateLimiter (limiter c) (request c) (time c)
                   (mkWorld store (response c) []) in
  (mkOutcome r (res w) (nextCalls w), rateLimitStore w).

(** Invocations in sequence on the shared table. *)
Fixpoint run (store : gmap string RateLimitEntry) (cs : list Call)
  : list Outcome * gmap string RateLimitEntry :=
  match cs with
  | [] => ([], store)
  | c :: cs =>
    let '(o, store') := invoke c store in
    let '(os, store'') := run store' cs in
    (o :: os, store'')
  end.

(** The identifier a request resolves to, or the value raised on the way. *)
Definition identifier (req : Request) : Completion string :=
  fst (resolve_ip req (mkWorld ∅ (mkResponse false ∅) [])).

(** The table key of a request, when its identifier resolves. *)
Definition key_of (req : Request) : option string :=
  match identifier req with
  | Normal ip => Some (make_key ip (path req))
  | Throw _ => None
  end.

(** A response that still accepts headers, with none set. *)
Definition fresh_response : Response := mkResponse false ∅.

(** A request with a plain address and path. *)
Definition request_from (ip path : string) : Request :=
  mkRequest (inr (Some ip)) (inr None) path.

(** * Vocabulary of the properties *)

(** ** The live view of the table

    The handler looks at an entry only through the test
    [!entry || entry.resetAt <= now]: what it can tell apart is the entry
    when its window is still open, and nothing otherwise. *)
Definition live (now : Z) (entry : option RateLimitEntry) : option RateLimitEntry :=
  match entry with
  | Some e => if resetAt e <=? now then None else Some e
  | None => None
  end.

(** Two tables with the same live view at time [t]. *)
Definition same_live (t : Z) (store1 store2 : gmap string RateLimitEntry) : Prop :=
  ∀ k, live t (store1 !! k) = live t (store2 !! k).

(** ** Outcomes *)

(** The three headers every accounted request carries, set in the order
    the handler sets them. *)
Definition quota_headers (limit remaining reset : Z) (hs : Headers)
  : Headers :=
  <["X-RateLimit-Reset" := String_of_number reset]>
   (<["X-RateLimit-Remaining" := String_of_number remaining]>
    (<["X-RateLimit-Limit" := String_of_number limit]> hs)).

(** The request was handed on: [next()] and nothing else. *)
Definition admitted (o : Outcome) : Prop :=
  completion o = Normal () ∧ next_args o = [None].

(** The request was refused: [next(err)] with an [ApiError] of status 429. *)
Definition denied_429 (o : Outcome) : Prop :=
  completion o = Normal () ∧
  ∃ msg secs, next_args o = [Some (ApiError msg 429 secs)].

(** An invocation of the instance [options] for identifier [id] on route
    [p], on a response that accepts headers, before the window closes at
    [closes]. *)
Definition in_window (options : RateLimitOptions) (id p : string) (closes : Z)
    (c : Call) : Prop :=
  limiter c = options ∧
  identifier (request c) = Normal id ∧
  path (request c) = p ∧
  headersSent (response c) = false ∧
  time c < closes.

(** The statement of C6 about the message, as the specification words it:
    a denied request carries the configured message whenever the policy
    provides one. *)
Definition denial_uses_provided_message : Prop :=
  ∀ (c : Call) (id : string) (store : gmap string RateLimitEntry)
    (e : RateLimitEntry) (m : string),
    identifier (request c) = Normal id →
    headersSent (response c) = false →
    store !! make_key id (path (request c)) = Some e →
    time c < resetAt e →
    maxRequests (limiter c) < count e + 1 →
    message (limiter c) = Some m →
    ∃ secs, next_args (invoke c store).1 = [Some (ApiError m 429 secs)].

(** ** Keys and routes *)

(** Handling [c1] leaves the entry under [k2] as it was, and the decision
    on [c2] is the same after [c1] as without it. *)
Definition same_outcome_and_entry (c1 c2 : Call)
    (store : gmap string RateLimitEntry) (k2 : string) : Prop :=
  (invoke c1 store).2 !! k2 = store !! k2 ∧
  (invoke c2 (invoke c1 store).2).1 = (invoke c2 store).1.

(** The statement of C3, as the specification words it: whenever the
    (identifier, route) pairs of two requests differ, handling the first
    leaves the entry of the second, and the decision on the second, as they
    were. *)
Definition distinct_pairs_never_share : Prop :=
  ∀ (c1 c2 : Call) (id1 id2 : string) (store : gmap string RateLimitEntry),
    identifier (request c1) = Normal id1 →
    identifier (request c2) = Normal id2 →
    (id1, path (request c1)) ≠ (id2, path (request c2)) →
    same_outcome_and_entry c1 c2 store (make_key id2 (path (request c2))).

(** The string holds no slash: so it is with the identifiers the host
    resolves (IPv4 and IPv6 addresses) and with ['unknown']. *)
Fixpoint no_slash (s : string) : bool :=
  match s with
  | EmptyString => true
  | String a s => negb (Ascii.eqb a "/"%char) && no_slash s
  end.

(** The string starts with a slash, as [req.path] does. *)
Definition rooted (p : string) : bool :=
  match p with
  | String a _ => Ascii.eqb a "/"%char
  | EmptyString => false
  end.

(** ** Instances *)

#[local] Instance RateLimitOptions_eq_dec : EqDecision RateLimitOptions.
Proof. solve_decision. Defined.

(** The invocation went through the instance built from [options]. *)
Definition through (options : RateLimitOptions) (c : Call) : Prop :=
  limiter c = options.

#[local] Instance through_dec options c : Decision (through options c).
Proof. unfold through. apply _. Defined.

(** The outcomes, among those of a run of [cs], of the invocations that
    went through [options]. *)
Fixpoint outcomes_of (options : RateLimitOptions) (cs : list Call)
    (os : list Outcome) : list Outcome :=
  match cs, os with
  | c :: cs, o :: os =>
      if decide (through options c)
      then o :: outcomes_of options cs os
      else outcomes_of options cs os
  | _, _ => []
  end.

(** The statement of C2, as the specification words it: whatever two
    different policies two instances are built from, and however their
    invocations interleave, the decisions of the one are those it would take
    if the invocations of the other had not happened. *)
Definition instances_independent : Prop :=
  ∀ (a b : RateLimitOptions) (store : gmap string RateLimitEntry) (cs : list Call),
    a ≠ b →
    Forall (λ c, through a c ∨ through b c) cs →
    outcomes_of a cs (run store cs).1 = (run store (filter (through a) cs)).1.

(** ** Traces with sweeps, and selections of a trace *)

(** What happens to the table over the life of the process: a handler
    invocation, or a firing of the [setInterval] callback at clock reading
    [now]. *)
Inductive Event :=
| Invoke (c : Call)
| Sweep (now : Z).

(** Events in sequence on the shared table; only invocations have an
    outcome. *)
Fixpoint play (store : gmap string RateLimitEntry) (evs : list Event)
  : list Outcome * gmap string RateLimitEntry :=
  match evs with
  | [] => ([], store)
  | Invoke c :: evs =>
    let '(o, store') := invoke c store in
    let '(os, store'') := play store' evs in
    (o :: os, store'')
  | Sweep now :: evs => play (cleanup now store) evs
  end.

(** The invocations of a trace, sweeps left out. *)
Fixpoint requests_of (evs : list Event) : list Call :=
  match evs with
  | [] => []
  | Invoke c :: evs => c :: requests_of evs
  | Sweep _ :: evs => requests_of evs
  end.

(** No invocation reads a clock behind [t] or behind an earlier sweep. *)
Fixpoint timely (t : Z) (evs : list Event) : Prop :=
  match evs with
  | [] => True
  | Invoke c :: evs => t ≤ time c ∧ timely t evs
  | Sweep now :: evs => timely (Z.max t now) evs
  end.

(** The invocation works on the table key [k]. *)
Definition for_key (k : string) (c : Call) : Prop :=
  key_of (request c) = Some k.

#[local] Instance for_key_dec k c : Decision (for_key k c).
Proof. unfold for_key. apply _. Defined.

(** The outcomes, among those of a run of [cs], of the invocations that
    work on the key [k]. *)
Fixpoint outcomes_for (k : string) (cs : list Call) (os : list Outcome)
  : list Outcome :=
  match cs, os with
  | c :: cs, o :: os =>
      if decide (for_key k c)
      then o :: outcomes_for k cs os
      else outcomes_for k cs os
  | _, _ => []
  end.

(** Every entry of the table counts at least one request. *)
Definition counts_positive (store : gmap string RateLimitEntry) : Prop :=
  ∀ k e, store !! k = Some e → 1 ≤ count e.

(** The keys the invocations of [cs] work on. *)
Fixpoint keys_of (cs : list Call) : gset string :=
  match cs with
  | [] => ∅
  | c :: cs =>
      match key_of (request c) with
      | Some k => {[ k ]} ∪ keys_of cs
      | None => keys_of cs
      end
  end.

(** * Properties *)

(** ** Elementary facts about the embedding *)

(** Reading a header back, under any spelling of its name. *)
Lemma headers_lookup_insert (hs : Headers) (name name' value : string) :
  <[name := value]> hs !! name' =
    if decide (toLowerCase name = toLowerCase name') then Some value
    else hs !! name'.
Proof.
  unfold lookup, insert, Headers_lookup, Headers_insert. cbn [by_lower_name].
  apply lookup_insert.
Qed.

Lemma headers_lookup_insert_eq (hs : Headers) (name value : string) :
  <[name := value]> hs !! name = Some value.
Proof. rewrite headers_lookup_insert. by rewrite decide_True. Qed.

Lemma headers_lookup_insert_ne (hs : Headers) (name name' value : string) :
  toLowerCase name ≠ toLowerCase name' →
  <[name := value]> hs !! name' = hs !! name'.
Proof. intros Hne. rewrite headers_lookup_insert. by rewrite decide_False. Qed.

Lemma resolve_ip_pure (req : Request) (w : World) :
  resolve_ip req w = (identifier req, w).
Proof.
  unfold identifier, resolve_ip, mbind, M_bind, read, or_else, mret, M_ret, throw.
  destruct (ip req) as [e|a]; [done|].
  destruct (truthy a); [done|].
  by destruct (remoteAddress req).
Qed.

(** [ceil_div d k] is the least integer [q] with [d <= k * q]. *)
Lemma ceil_div_spec (d k : Z) :
  0 < k → k * (ceil_div d k - 1) < d ∧ d ≤ k * ceil_div d k.
Proof.
  intros Hk. unfold ceil_div.
  pose proof (Z.div_mod (- d) k ltac:(lia)) as Hdm.
  pose proof (Z.mod_pos_bound (- d) k Hk) as Hb.
  lia.
Qed.

Lemma ceil_div_pos (d k : Z) : 0 < k → 0 < d → 1 ≤ ceil_div d k.
Proof. intros Hk Hd. pose proof (ceil_div_spec d k Hk). nia. Qed.

(** Closes the side conditions of [headers_lookup_insert_ne] on literal
    header names. *)
Ltac names_differ := vm_compute; discriminate.

(** Unfolds one handler invocation down to the table lookup and the tests
    on the entry. *)
Ltac step_handler :=
  unfold rateLimiter, try_catch, rateLimiter_body, mbind, M_bind;
  rewrite ?resolve_ip_pure;
  unfold store_get, store_set, setHeader, next; cbn [rateLimitStore res nextCalls
    headersSent headers count resetAt fst snd].

(** The fresh-window branch in closed form. *)
Lemma rateLimiter_fresh options req now store r calls id :
  identifier req = Normal id →
  headersSent r = false →
  from_option (λ e, resetAt e ≤ now) True (store !! make_key id (path req)) →
  rateLimiter options req now (mkWorld store r calls) =
    (Normal (),
     mkWorld (<[make_key id (path req) := mkEntry 1 (now + windowMs options)]> store)
       (mkResponse false
          (<["X-RateLimit-Reset" := String_of_number (now + windowMs options)]>
           (<["X-RateLimit-Remaining" := String_of_number (maxRequests options - 1)]>
            (<["X-RateLimit-Limit" := String_of_number (maxRequests options)]>
             (headers r)))))
       (calls ++ [None])).
Proof.
  destruct r as [[] hs]; [done|]. intros Hid _ Hexp. step_handler. rewrite Hid.
  destruct (store !! make_key id (path req)) as [e|] eqn:He; simpl in Hexp |- *.
  - by destruct (Z.leb_spec (resetAt e) now); [|lia].
  - done.
Qed.

(** The counting branch in closed form. *)
Lemma rateLimiter_active options req now store r calls id e :
  identifier req = Normal id →
  headersSent r = false →
  store !! make_key id (path req) = Some e →
  now < resetAt e →
  let hs :=
    <["X-RateLimit-Reset" := String_of_number (resetAt e)]>
     (<["X-RateLimit-Remaining" :=
          String_of_number (Z.max 0 (maxRequests options - (count e + 1)))]>
      (<["X-RateLimit-Limit" := String_of_number (maxRequests options)]>
       (headers r))) in
  let secs := ceil_div (resetAt e - now) 1000 in
  rateLimiter options req now (mkWorld store r calls) =
    (Normal (),
     mkWorld (<[make_key id (path req) := mkEntry (count e + 1) (resetAt e)]> store)
       (if maxRequests options <? count e + 1
        then mkResponse false (<["Retry-After" := String_of_number secs]> hs)
        else mkResponse false hs)
       (calls ++ [if maxRequests options <? count e + 1
                  then Some (ApiError (errorMessage options secs) 429 secs)
                  else None])).
Proof.
  destruct r as [[] hs]; [done|]. intros Hid _ He Hlive. step_handler.
  rewrite Hid, He. simpl.
  destruct (Z.leb_spec (resetAt e) now); [lia|]. simpl.
  by destruct (maxRequests options <? count e + 1).
Qed.

(** A failing identifier resolution reaches [next] and nothing else. *)
Lemma rateLimiter_unresolved options req now w err :
  identifier req = Throw err →
  rateLimiter options req now w =
    (Normal (), mkWorld (rateLimitStore w) (res w) (nextCalls w ++ [Some err])).
Proof. intros Hid. step_handler. by rewrite Hid. Qed.

(** On a response whose headers are already sent the entry is still
    accounted for, and the failure of [setHeader] reaches [next]. *)
Lemma rateLimiter_headers_sent options req now store r calls id :
  identifier req = Normal id →
  headersSent r = true →
  let key := make_key id (path req) in
  rateLimiter options req now (mkWorld store r calls) =
    (Normal (),
     mkWorld
       (<[key := match store !! key with
                 | Some e => if resetAt e <=? now
                             then mkEntry 1 (now + windowMs options)
                             else mkEntry (count e + 1) (resetAt e)
                 | None => mkEntry 1 (now + windowMs options)
                 end]> store)
       r (calls ++ [Some (Thrown "ERR_HTTP_HEADERS_SENT")])).
Proof.
  destruct r as [[] hs]; [|done]. intros Hid _ key. step_handler.
  rewrite Hid. fold key.
  destruct (store !! key) as [e|]; simpl; [|done].
  by destruct (resetAt e <=? now).
Qed.

(** ** The live view *)

Lemma live_None now entry :
  live now entry = None ↔ from_option (λ e, resetAt e ≤ now) True entry.
Proof.
  destruct entry as [e|]; simpl; [|done].
  destruct (resetAt e <=? now) eqn:E.
  - apply Z.leb_le in E. naive_solver.
  - apply Z.leb_gt in E. split; [done|lia].
Qed.

Lemma live_Some now entry e :
  live now entry = Some e ↔ entry = Some e ∧ now < resetAt e.
Proof.
  destruct entry as [e'|]; simpl.
  - destruct (resetAt e' <=? now) eqn:E.
    + apply Z.leb_le in E. split; [done|]. intros [[= ->] ?]. lia.
    + apply Z.leb_gt in E. split.
      * by intros [= ->].
      * by intros [[= ->] _].
  - split; [done|]. by intros [? _].
Qed.

(** An entry dead at [t] stays dead later; a later view factors through an
    earlier one. *)
Lemma live_mono t now entry : t ≤ now → live now (live t entry) = live now entry.
Proof.
  intros Ht. destruct entry as [e|]; simpl; [|done].
  destruct (resetAt e <=? t) eqn:E; simpl; [|done].
  apply Z.leb_le in E. by rewrite (proj2 (Z.leb_le _ _)) by lia.
Qed.

(** ** One invocation in closed form *)

Section invoke.
Context (c : Call) (id : string).
Hypothesis Hid : identifier (request c) = Normal id.

Local Abbreviation key := (make_key id (path (request c))).
Local Abbreviation options := (limiter c).
Local Abbreviation now := (time c).

Lemma invoke_fresh store :
  headersSent (response c) = false →
  live now (store !! key) = None →
  invoke c store =
    (mkOutcome (Normal ())
       (mkResponse false
          (quota_headers (maxRequests options) (maxRequests options - 1)
             (now + windowMs options) (headers (response c))))
       [None],
     <[key := mkEntry 1 (now + windowMs options)]> store).
Proof.
  intros Hsent Hexp%live_None. unfold invoke.
  by rewrite (rateLimiter_fresh options (request c) now store (response c)
                [] id Hid Hsent Hexp).
Qed.

Lemma invoke_active store e :
  headersSent (response c) = false →
  live now (store !! key) = Some e →
  let secs := ceil_div (resetAt e - now) 1000 in
  let hs := quota_headers (maxRequests options)
              (Z.max 0 (maxRequests options - (count e + 1))) (resetAt e)
              (headers (response c)) in
  invoke c store =
    (if maxRequests options <? count e + 1
     then mkOutcome (Normal ())
            (mkResponse false (<["Retry-After" := String_of_number secs]> hs))
            [Some (ApiError (errorMessage options secs) 429 secs)]
     else mkOutcome (Normal ()) (mkResponse false hs) [None],
     <[key := mkEntry (count e + 1) (resetAt e)]> store).
Proof.
  intros Hsent [He Hlive]%live_Some. unfold invoke.
  rewrite (rateLimiter_active options (request c) now store (response c)
             [] id e Hid Hsent He Hlive).
  by destruct (maxRequests options <? count e + 1).
Qed.

Lemma invoke_headers_sent store :
  headersSent (response c) = true →
  invoke c store =
    (mkOutcome (Normal ()) (response c) [Some (Thrown "ERR_HTTP_HEADERS_SENT")],
     <[key := match live now (store !! key) with
              | Some e => mkEntry (count e + 1) (resetAt e)
              | None => mkEntry 1 (now + windowMs options)
              end]> store).
Proof.
  intros Hsent. unfold invoke.
  rewrite (rateLimiter_headers_sent options (request c) now store
             (response c) [] id Hid Hsent).
  cbn. do 2 f_equal. destruct (store !! key) as [e|]; [|done].
  simpl. by destruct (resetAt e <=? now).
Qed.

(** An invocation touches the table at its own key only. *)
Lemma invoke_frame store k' :
  key ≠ k' → (invoke c store).2 !! k' = store !! k'.
Proof.
  intros Hne. destruct (headersSent (response c)) eqn:Hsent.
  - rewrite invoke_headers_sent by done. by apply lookup_insert_ne.
  - destruct (live now (store !! key)) as [e|] eqn:Hl.
    + rewrite (invoke_active _ e) by done. by apply lookup_insert_ne.
    + rewrite invoke_fresh by done. by apply lookup_insert_ne.
Qed.

(** What the host observes, and what is written back, depend on the
    table through the live view of the request's own entry only. *)
Lemma invoke_live store1 store2 :
  live now (store1 !! key) = live now (store2 !! key) →
  (invoke c store1).1 = (invoke c store2).1 ∧
  (invoke c store1).2 !! key = (invoke c store2).2 !! key.
Proof.
  intros Hl. destruct (headersSent (response c)) eqn:Hsent.
  - rewrite !invoke_headers_sent by done. simpl.
    by rewrite Hl, !lookup_insert_eq.
  - destruct (live now (store2 !! key)) as [e|] eqn:Hl2.
    + rewrite !(invoke_active _ e) by done. simpl.
      by rewrite !lookup_insert_eq.
    + rewrite !invoke_fresh by done. simpl. by rewrite !lookup_insert_eq.
Qed.
End invoke.

(** Without an identifier the table is neither read nor written. *)
Lemma invoke_unresolved c store err :
  identifier (request c) = Throw err →
  invoke c store = (mkOutcome (Normal ()) (response c) [Some err], store).
Proof. intros Hid. unfold invoke. by rewrite (rateLimiter_unresolved _ _ _ _ err). Qed.

(** ** The background sweep *)

(** The fold that deletes from the table it traverses leaves, at every key,
    the original entry unless that entry was visited and found expired. *)
Lemma cleanup_fold now (visited acc : gmap string RateLimitEntry) key :
  map_fold (λ k entry acc, if resetAt entry <=? now then delete k acc else acc)
           acc visited !! key =
  match visited !! key with
  | Some entry => if resetAt entry <=? now then None else acc !! key
  | None => acc !! key
  end.
Proof.
  revert key.
  induction visited as [|k entry visited Hfresh Hfold IH] using map_first_key_ind;
    intros key.
  - by rewrite map_fold_empty, lookup_empty.
  - rewrite map_fold_insert_first_key by done.
    destruct (decide (k = key)) as [->|Hne].
    + rewrite lookup_insert_eq.
      destruct (resetAt entry <=? now); [by rewrite lookup_delete_eq|].
      by rewrite IH, Hfresh.
    + rewrite lookup_insert_ne by done.
      destruct (resetAt entry <=? now); [rewrite lookup_delete_ne by done|];
        apply IH.
Qed.

Lemma cleanup_live now store key : cleanup now store !! key = live now (store !! key).
Proof.
  unfold cleanup. rewrite cleanup_fold. unfold live.
  destruct (store !! key) as [entry|]; [|done].
  by destruct (resetAt entry <=? now).
Qed.

(** C8: for every table and every sweep time [now], the sweep removes
    exactly the entries whose [resetAt] has passed ([resetAt <= now]); an
    entry whose window is still open ([now < resetAt]) is present and
    unchanged afterwards, and no entry appears that was not there. *)
Theorem cleanup_removes_exactly_expired
    (store : gmap string RateLimitEntry) (now : Z) (key : string) :
  cleanup now store !! key =
    match store !! key with
    | Some entry => if resetAt entry <=? now then None else Some entry
    | None => None
    end.
Proof. apply cleanup_live. Qed.

(** ** One request *)

(** C4: a request whose key has no entry, or an entry whose [resetAt] has
    elapsed, starts a fresh window: the stored count becomes 1, the stored
    [resetAt] becomes [now + windowMs], and the request is admitted
    ([next()] is the only call to [next]), given [maxRequests >= 1]. *)
Theorem fresh_window_admitted (c : Call) (id : string)
    (store : gmap string RateLimitEntry) :
  identifier (request c) = Normal id →
  headersSent (response c) = false →
  1 ≤ maxRequests (limiter c) →
  (store !! make_key id (path (request c)) = None ∨
   ∃ e, store !! make_key id (path (request c)) = Some e ∧ resetAt e ≤ time c) →
  (invoke c store).2 !! make_key id (path (request c))
    = Some (mkEntry 1 (time c + windowMs (limiter c))) ∧
  completion (invoke c store).1 = Normal () ∧
  next_args (invoke c store).1 = [None].
Proof.
  intros Hid Hsent _ Hold.
  assert (live (time c) (store !! make_key id (path (request c))) = None) as Hl.
  { apply live_None. by destruct Hold as [->|(e & -> & ?)]. }
  rewrite (invoke_fresh c id Hid store Hsent Hl). simpl.
  by rewrite lookup_insert_eq.
Qed.

Lemma fresh_window_admitted_witness :
  let c := mkCall standardLimiter (request_from "1.2.3.4" "/x") fresh_response 1000 in
  (invoke c ∅).2 !! "1.2.3.4:/x" = Some (mkEntry 1 61000) ∧
  completion (invoke c ∅).1 = Normal () ∧
  next_args (invoke c ∅).1 = [None].
Proof.
  intros c.
  apply (fresh_window_admitted c "1.2.3.4" ∅); [reflexivity|reflexivity|simpl; lia|].
  left. reflexivity.
Defined.

(** C10: the fresh-window branch never looks at [maxRequests]: whatever the
    policy, also with [maxRequests <= 0], the first request of a window is
    admitted, with [X-RateLimit-Remaining] set to [maxRequests - 1]; for a
    ceiling of zero that header reads [-1]. *)
Theorem first_request_admitted_any_policy (c : Call) (id : string)
    (store : gmap string RateLimitEntry) :
  identifier (request c) = Normal id →
  headersSent (response c) = false →
  (store !! make_key id (path (request c)) = None ∨
   ∃ e, store !! make_key id (path (request c)) = Some e ∧ resetAt e ≤ time c) →
  completion (invoke c store).1 = Normal () ∧
  next_args (invoke c store).1 = [None] ∧
  headers (response_after (invoke c store).1) !! "X-RateLimit-Remaining"
    = Some (String_of_number (maxRequests (limiter c) - 1)) ∧
  (maxRequests (limiter c) = 0 →
   headers (response_after (invoke c store).1) !! "X-RateLimit-Remaining"
     = Some "-1").
Proof.
  intros Hid Hsent Hold.
  assert (live (time c) (store !! make_key id (path (request c))) = None) as Hl.
  { apply live_None. by destruct Hold as [->|(e & -> & ?)]. }
  rewrite (invoke_fresh c id Hid store Hsent Hl).
  cbn [fst completion next_args response_after headers]. unfold quota_headers.
  rewrite headers_lookup_insert_ne, headers_lookup_insert_eq by names_differ.
  repeat split. by intros ->.
Qed.

Lemma first_request_admitted_any_policy_witness :
  let c := mkCall (mkOptions 60000 0 None) (request_from "1.2.3.4" "/x")
             fresh_response 1000 in
  completion (invoke c ∅).1 = Normal () ∧
  next_args (invoke c ∅).1 = [None] ∧
  headers (response_after (invoke c ∅).1) !! "X-RateLimit-Remaining"
    = Some (String_of_number (0 - 1)) ∧
  (0 = 0 →
   headers (response_after (invoke c ∅).1) !! "X-RateLimit-Remaining" = Some "-1").
Proof.
  intros c.
  apply (first_request_admitted_any_policy c "1.2.3.4" ∅);
    [reflexivity|reflexivity|left; reflexivity].
Defined.

(** C5: every request that is accounted for, admitted or denied, under a
    policy with [maxRequests >= 1] leaves [X-RateLimit-Remaining] set to the
    non-negative integer [max(0, maxRequests - count)], [count] being the
    count stored for the key after the request; [X-RateLimit-Limit] is
    [maxRequests] and [X-RateLimit-Reset] the stored [resetAt]. *)
Theorem quota_headers_reflect_entry (c : Call) (id : string)
    (store : gmap string RateLimitEntry) :
  identifier (request c) = Normal id →
  headersSent (response c) = false →
  1 ≤ maxRequests (limiter c) →
  ∃ entry remaining,
    (invoke c store).2 !! make_key id (path (request c)) = Some entry ∧
    remaining = Z.max 0 (maxRequests (limiter c) - count entry) ∧
    0 ≤ remaining ∧
    headers (response_after (invoke c store).1) !! "X-RateLimit-Remaining"
      = Some (String_of_number remaining) ∧
    headers (response_after (invoke c store).1) !! "X-RateLimit-Limit"
      = Some (String_of_number (maxRequests (limiter c))) ∧
    headers (response_after (invoke c store).1) !! "X-RateLimit-Reset"
      = Some (String_of_number (resetAt entry)).
Proof.
  intros Hid Hsent Hmax.
  destruct (live (time c) (store !! make_key id (path (request c))))
    as [e|] eqn:Hl.
  - rewrite (invoke_active c id Hid store e Hsent Hl).
    eexists _, _. cbn [snd fst]. rewrite lookup_insert_eq.
    split; [done|]. split; [done|]. split; [simpl; lia|].
    destruct (maxRequests (limiter c) <? count e + 1);
      cbn [response_after headers count resetAt]; unfold quota_headers;
      rewrite ?(headers_lookup_insert_ne _ "Retry-After") by names_differ;
      by rewrite headers_lookup_insert_eq,
        (headers_lookup_insert_ne _ "X-RateLimit-Reset"),
        headers_lookup_insert_eq, !headers_lookup_insert_ne,
        headers_lookup_insert_eq by names_differ.
  - rewrite (invoke_fresh c id Hid store Hsent Hl).
    eexists _, _. cbn [snd fst]. rewrite lookup_insert_eq.
    split; [done|]. split; [done|]. split; [simpl; lia|].
    cbn [response_after headers count resetAt]. unfold quota_headers.
    rewrite headers_lookup_insert_eq,
      (headers_lookup_insert_ne _ "X-RateLimit-Reset"),
      headers_lookup_insert_eq, !headers_lookup_insert_ne,
      headers_lookup_insert_eq by names_differ.
    by rewrite Z.max_r by lia.
Qed.

Lemma quota_headers_reflect_entry_witness :
  let c := mkCall authLimiter (request_from "1.2.3.4" "/login") fresh_response 5 in
  let store : gmap string RateLimitEntry := {[ "1.2.3.4:/login" := mkEntry 10 900 ]} in
  ∃ entry remaining,
    (invoke c store).2 !! "1.2.3.4:/login" = Some entry ∧
    remaining = Z.max 0 (10 - count entry) ∧
    0 ≤ remaining ∧
    headers (response_after (invoke c store).1) !! "X-RateLimit-Remaining"
      = Some (String_of_number remaining) ∧
    headers (response_after (invoke c store).1) !! "X-RateLimit-Limit"
      = Some (String_of_number 10) ∧
    headers (response_after (invoke c store).1) !! "X-RateLimit-Reset"
      = Some (String_of_number (resetAt entry)).
Proof.
  intros c store.
  apply (quota_headers_reflect_entry c "1.2.3.4" store);
    [reflexivity|reflexivity|simpl; lia].
Defined.

(** ** Denial *)

(** C6, counterexample: a policy constructed with [message: ''] provides a
    message, yet [options.message || ...] finds it falsy and the denial
    carries the default text. *)
Lemma denial_empty_message_counterexample :
  let c := mkCall (mkOptions 60000 1 (Some "")) (request_from "1.2.3.4" "/x")
             fresh_response 1000 in
  let store : gmap string RateLimitEntry := {[ "1.2.3.4:/x" := mkEntry 1 60000 ]} in
  next_args (invoke c store).1
    = [Some (ApiError "Too many requests, please try again in 59 seconds" 429 59)] ∧
  ¬ denial_uses_provided_message.
Proof.
  intros c store.
  assert (next_args (invoke c store).1
    = [Some (ApiError "Too many requests, please try again in 59 seconds" 429 59)])
    as Hrun by (vm_compute; reflexivity).
  split; [exact Hrun|].
  intros Hclaim.
  destruct (Hclaim c "1.2.3.4" store (mkEntry 1 60000) "") as [secs Hsecs];
    try reflexivity; try (simpl; lia).
  rewrite Hrun in Hsecs. discriminate Hsecs.
Qed.

(** C6, amended: a denied request (an open window whose incremented count
    exceeds [maxRequests]) completes without raising and hands [next] one
    [ApiError] of status 429 whose [retryAfter] is
    [ceil((resetAt - now) / 1000)], a positive number of seconds; the
    message is the configured one when it is a non-empty string, and
    otherwise (absent or empty) the default text interpolating that number;
    [Retry-After] carries the same integer. *)
Theorem denial_error (c : Call) (id : string)
    (store : gmap string RateLimitEntry) (e : RateLimitEntry) :
  identifier (request c) = Normal id →
  headersSent (response c) = false →
  store !! make_key id (path (request c)) = Some e →
  time c < resetAt e →
  maxRequests (limiter c) < count e + 1 →
  ∃ secs msg,
    1000 * (secs - 1) < resetAt e - time c ∧ resetAt e - time c ≤ 1000 * secs ∧
    1 ≤ secs ∧
    msg = match message (limiter c) with
          | Some m => if String.eqb m "" then
              "Too many requests, please try again in "
                +:+ String_of_number secs +:+ " seconds"
            else m
          | None =>
              "Too many requests, please try again in "
                +:+ String_of_number secs +:+ " seconds"
          end ∧
    completion (invoke c store).1 = Normal () ∧
    next_args (invoke c store).1 = [Some (ApiError msg 429 secs)] ∧
    headers (response_after (invoke c store).1) !! "Retry-After"
      = Some (String_of_number secs).
Proof.
  intros Hid Hsent He Hopen Hover.
  assert (live (time c) (store !! make_key id (path (request c))) = Some e) as Hl
    by by apply live_Some.
  rewrite (invoke_active c id Hid store e Hsent Hl).
  rewrite (proj2 (Z.ltb_lt _ _) Hover). cbn [fst completion next_args response_after headers].
  pose proof (ceil_div_spec (resetAt e - time c) 1000 ltac:(lia)) as [Hlo Hhi].
  pose proof (ceil_div_pos (resetAt e - time c) 1000 ltac:(lia) ltac:(lia)).
  eexists _, _. repeat split; try done.
  - unfold errorMessage, or_string, truthy.
    destruct (message (limiter c)) as [m|]; [|done].
    by destruct (String.eqb m "").
  - by rewrite headers_lookup_insert_eq.
Qed.

Lemma denial_error_witness :
  let c := mkCall authLimiter (request_from "1.2.3.4" "/login") fresh_response 100 in
  let store : gmap string RateLimitEntry := {[ "1.2.3.4:/login" := mkEntry 10 2500 ]} in
  ∃ secs msg,
    1000 * (secs - 1) < 2500 - 100 ∧ 2500 - 100 ≤ 1000 * secs ∧
    1 ≤ secs ∧
    msg = "Too many authentication attempts, please try again after 15 minutes" ∧
    completion (invoke c store).1 = Normal () ∧
    next_args (invoke c store).1 = [Some (ApiError msg 429 secs)] ∧
    headers (response_after (invoke c store).1) !! "Retry-After"
      = Some (String_of_number secs).
Proof.
  intros c store.
  apply (denial_error c "1.2.3.4" store (mkEntry 10 2500));
    [reflexivity|reflexivity|reflexivity|simpl; lia|simpl; lia].
Defined.

(** ** Failures inside the handler *)

(** Every path through the [try] block that completes normally has called
    [next] exactly once. *)
Lemma rateLimiter_body_calls_next options req now w w' :
  rateLimiter_body options req now w = (Normal (), w') →
  ∃ arg, nextCalls w' = nextCalls w ++ [arg].
Proof.
  destruct w as [store [sent hs] calls].
  unfold rateLimiter_body, mbind, M_bind. rewrite resolve_ip_pure.
  destruct (identifier req) as [id|err]; [|done].
  unfold store_get, store_set, setHeader, next. simpl.
  destruct sent; simpl.
  - destruct (store !! make_key id (path req)) as [e|]; [|done].
    by destruct (resetAt e <=? now).
  - destruct (store !! make_key id (path req)) as [e|]; simpl;
      [|intros [= <-]; by eexists].
    destruct (resetAt e <=? now); simpl; [intros [= <-]; by eexists|].
    destruct (maxRequests options <? count e + 1); simpl;
      intros [= <-]; by eexists.
Qed.

(** Until it completes, the [try] block leaves the log of [next] alone: a
    raise happens before any call to [next]. *)
Lemma rateLimiter_body_raise options req now w w' err :
  rateLimiter_body options req now w = (Throw err, w') →
  nextCalls w' = nextCalls w.
Proof.
  destruct w as [store [sent hs] calls].
  unfold rateLimiter_body, mbind, M_bind. rewrite resolve_ip_pure.
  destruct (identifier req) as [id|err']; [|by intros [= _ <-]].
  unfold store_get, store_set, setHeader, next. simpl.
  destruct sent; simpl.
  - destruct (store !! make_key id (path req)) as [e|]; [|by intros [= _ <-]].
    by destruct (resetAt e <=? now); intros [= _ <-].
  - destruct (store !! make_key id (path req)) as [e|]; simpl; [|done].
    destruct (resetAt e <=? now); simpl; [done|].
    by destruct (maxRequests options <? count e + 1).
Qed.

(** C9: whatever the request and the state of the collaborators, the
    handler completes normally and has called [next] exactly once; when the
    [try] block raises (identifier resolution, [setHeader]), the value
    raised is the argument of that call.  A request whose [req.ip] and
    [req.socket.remoteAddress] are both [undefined] or empty does not fail:
    its identifier is ['unknown']. *)
Theorem rateLimiter_never_raises (options : RateLimitOptions) (req : Request)
    (now : Z) (w : World) :
  (∃ w' arg,
     rateLimiter options req now w = (Normal (), w') ∧
     nextCalls w' = nextCalls w ++ [arg] ∧
     match rateLimiter_body options req now w with
     | (Throw err, _) => arg = Some err
     | (Normal _, _) => True
     end) ∧
  (∀ a b,
     ip req = inr a → remoteAddress req = inr b →
     truthy a = false → truthy b = false →
     identifier req = Normal "unknown" ∧
     key_of req = Some ("unknown:" +:+ path req)).
Proof.
  split.
  - unfold rateLimiter, try_catch.
    destruct (rateLimiter_body options req now w) as [[[]|err] w'] eqn:Hbody.
    + destruct (rateLimiter_body_calls_next _ _ _ _ _ Hbody) as [arg Harg].
      by exists w', arg.
    + apply rateLimiter_body_raise in Hbody. unfold next. eexists _, _.
      split; [done|]. simpl. by rewrite Hbody.
  - intros a b Hip Hremote Ha Hb.
    unfold key_of, identifier, resolve_ip, mbind, M_bind, read, or_else.
    rewrite Hip, Hremote. simpl. rewrite Ha. simpl.
    unfold or_string. rewrite Hb. by destruct b.
Qed.

Lemma rateLimiter_never_raises_witness :
  let req := mkRequest (inr None) (inr (Some "")) "/x" in
  let failing := mkRequest (inl (Thrown "TypeError")) (inr None) "/x" in
  let w := mkWorld ∅ fresh_response [] in
  (identifier req = Normal "unknown" ∧ key_of req = Some "unknown:/x") ∧
  ∃ w', rateLimiter standardLimiter failing 0 w = (Normal (), w') ∧
        nextCalls w' = [Some (Thrown "TypeError")].
Proof.
  intros req failing w. split.
  - apply (proj2 (rateLimiter_never_raises standardLimiter req 0 w) None (Some ""));
      reflexivity.
  - destruct (proj1 (rateLimiter_never_raises standardLimiter failing 0 w))
      as (w' & arg & Hrun & Hcalls & Hraised).
    exists w'. split; [exact Hrun|].
    vm_compute in Hraised. rewrite Hcalls, Hraised. reflexivity.
Defined.

(** ** Sequences of requests *)

Lemma run_cons store c cs :
  run store (c :: cs) =
    ((invoke c store).1 :: (run (invoke c store).2 cs).1,
     (run (invoke c store).2 cs).2).
Proof.
  cbn [run]. destruct (invoke c store) as [o store']. cbn [fst snd].
  by destruct (run store' cs) as [os store''].
Qed.

(** The key of a request is the key its invocation works on. *)
Lemma key_of_Some req k :
  key_of req = Some k ↔ ∃ id, identifier req = Normal id ∧ k = make_key id (path req).
Proof.
  unfold key_of. destruct (identifier req) as [id|err]; split.
  - intros [= <-]. by exists id.
  - by intros (id' & [= <-] & ->).
  - done.
  - by intros (id' & [=] & _).
Qed.

(** An invocation leaves every entry but its own alone. *)
Lemma invoke_other_key c store k :
  key_of (request c) ≠ Some k → (invoke c store).2 !! k = store !! k.
Proof.
  intros Hk. destruct (identifier (request c)) as [id|err] eqn:Hid.
  - apply (invoke_frame c id Hid). intros <-. apply Hk.
    apply key_of_Some. by exists id.
  - by rewrite (invoke_unresolved c store err Hid).
Qed.

(** Two tables with the same live view at time [t] are told apart by no
    invocation at a time from [t] on, and stay so related. *)
Lemma invoke_same_live t c store1 store2 :
  t ≤ time c →
  same_live t store1 store2 →
  (invoke c store1).1 = (invoke c store2).1 ∧
  same_live t (invoke c store1).2 (invoke c store2).2.
Proof.
  intros Ht Hsame. destruct (identifier (request c)) as [id|err] eqn:Hid.
  - destruct (invoke_live c id Hid store1 store2) as [Hout Hkey].
    { rewrite <-(live_mono t (time c) (store1 !! _)) by done.
      rewrite Hsame. by apply live_mono. }
    split; [done|]. intros k.
    destruct (decide (make_key id (path (request c)) = k)) as [<-|Hne].
    + by rewrite Hkey.
    + by rewrite !(invoke_frame c id Hid _ k Hne).
  - by rewrite !(invoke_unresolved c _ err Hid).
Qed.

Lemma run_same_live t cs store1 store2 :
  Forall (λ c, t ≤ time c) cs →
  same_live t store1 store2 →
  (run store1 cs).1 = (run store2 cs).1.
Proof.
  intros Hcs. revert store1 store2.
  induction Hcs as [|c cs Ht _ IH]; intros store1 store2 Hsame; [done|].
  rewrite !run_cons. simpl.
  destruct (invoke_same_live t c store1 store2 Ht Hsame) as [-> Hsame'].
  f_equal. by apply IH.
Qed.

(** C7: running the sweep does not change the outcome of any later
    invocation: for every table, every sweep time [t] and every sequence of
    invocations at clock readings from [t] on, what the host observes of
    each invocation (completion, response headers, calls to [next]) is the
    same on the swept table as on the table left alone. *)
Theorem cleanup_preserves_outcomes
    (store : gmap string RateLimitEntry) (t : Z) (cs : list Call) :
  Forall (λ c, t ≤ time c) cs →
  (run (cleanup t store) cs).1 = (run store cs).1.
Proof.
  intros Hcs. apply (run_same_live t); [done|].
  intros k. rewrite cleanup_live. by apply live_mono.
Qed.

Lemma cleanup_preserves_outcomes_witness :
  let store : gmap string RateLimitEntry :=
    {[ "1.2.3.4:/x" := mkEntry 2 500; "5.6.7.8:/x" := mkEntry 1 2000 ]} in
  let cs := [ mkCall (mkOptions 1000 2 None) (request_from "1.2.3.4" "/x")
                fresh_response 600;
              mkCall (mkOptions 1000 2 None) (request_from "5.6.7.8" "/x")
                fresh_response 700 ] in
  (run (cleanup 600 store) cs).1 = (run store cs).1.
Proof.
  intros store cs. apply (cleanup_preserves_outcomes store 600 cs).
  repeat constructor; simpl; lia.
Defined.

(** ** One identifier, one route, one window *)

Lemma run_length store cs : length (run store cs).1 = length cs.
Proof.
  revert store. induction cs as [|c cs IH]; intros store; [done|].
  rewrite run_cons. simpl. by rewrite IH.
Qed.

(** Inside an open window holding [k] requests, the request at position
    [n] brings the count to [k + n + 1] and is admitted exactly when that
    does not exceed the ceiling. *)
Lemma run_open_window options id p closes cs :
  Forall (in_window options id p closes) cs →
  ∀ store k (n : nat) o,
    store !! make_key id p = Some (mkEntry k closes) →
    (run store cs).1 !! n = Some o →
    (k + Z.of_nat n + 1 ≤ maxRequests options → admitted o) ∧
    (maxRequests options < k + Z.of_nat n + 1 → denied_429 o).
Proof.
  induction 1 as [|c cs (Hopt & Hid & Hpath & Hsent & Htime) _ IH];
    intros store k n o Hentry Hn; [done|].
  rewrite run_cons in Hn. cbn [fst] in Hn.
  assert (live (time c) (store !! make_key id (path (request c)))
          = Some (mkEntry k closes)) as Hl.
  { apply live_Some. by rewrite Hpath. }
  pose proof (invoke_active c id Hid store _ Hsent Hl) as Hinv.
  cbn [count resetAt] in Hinv. rewrite Hopt, Hpath in Hinv.
  destruct n as [|n].
  - injection Hn as <-. rewrite Hinv. cbn [fst]. split; intros Hk.
    + rewrite (proj2 (Z.ltb_ge _ _)) by lia. done.
    + rewrite (proj2 (Z.ltb_lt _ _)) by lia. split; [done|]. by eexists _, _.
  - cbn [lookup list_lookup] in Hn.
    destruct (IH (invoke c store).2 (k + 1) n o) as [Hadm Hden]; [|done|].
    { rewrite Hinv. cbn [snd]. apply lookup_insert_eq. }
    split; intros Hk; [apply Hadm|apply Hden]; lia.
Qed.

(** C1: under a policy with [maxRequests >= 1] and [windowMs > 0], take any sequence of
    requests from one identifier to one route that starts a window (no
    entry, or an expired one, at the first request) and stays inside it
    (every later request arrives before [resetAt]).  Every request of the
    sequence gets a decision; the Nth is admitted ([next()]) when
    [N <= maxRequests] and denied with an error of status 429 when
    [N > maxRequests]. *)
Theorem window_admits_up_to_max
    (options : RateLimitOptions) (id p : string)
    (store : gmap string RateLimitEntry) (first : Call) (rest : list Call) :
  1 ≤ maxRequests options →
  0 < windowMs options →
  in_window options id p (time first + windowMs options) first →
  from_option (λ e, resetAt e ≤ time first) True (store !! make_key id p) →
  Forall (in_window options id p (time first + windowMs options)) rest →
  length (run store (first :: rest)).1 = length (first :: rest) ∧
  ∀ (n : nat) o,
    (run store (first :: rest)).1 !! n = Some o →
    (Z.of_nat n + 1 ≤ maxRequests options → admitted o) ∧
    (maxRequests options < Z.of_nat n + 1 → denied_429 o).
Proof.
  intros Hmax _ (Hopt & Hid & Hpath & Hsent & _) Hstart Hrest.
  split; [apply run_length|]. intros n o Hn.
  rewrite run_cons in Hn. cbn [fst] in Hn.
  assert (live (time first) (store !! make_key id (path (request first))) = None)
    as Hl by (apply live_None; by rewrite Hpath).
  pose proof (invoke_fresh first id Hid store Hsent Hl) as Hinv.
  rewrite Hopt, Hpath in Hinv.
  destruct n as [|n].
  - injection Hn as <-. rewrite Hinv. cbn [fst]. split; [done|lia].
  - cbn [lookup list_lookup] in Hn.
    destruct (run_open_window options id p _ rest Hrest
                (invoke first store).2 1 n o) as [Hadm Hden]; [|done|].
    { rewrite Hinv. cbn [snd]. apply lookup_insert_eq. }
    split; intros Hk; [apply Hadm|apply Hden]; lia.
Qed.

Lemma window_admits_up_to_max_witness :
  let options := mkOptions 60000 2 None in
  let c t := mkCall options (request_from "1.2.3.4" "/x") fresh_response t in
  length (run ∅ [c 0; c 10; c 59999; c 20]).1 = 4%nat ∧
  ∀ (n : nat) o,
    (run ∅ [c 0; c 10; c 59999; c 20]).1 !! n = Some o →
    (Z.of_nat n + 1 ≤ 2 → admitted o) ∧ (2 < Z.of_nat n + 1 → denied_429 o).
Proof.
  intros options c.
  apply (window_admits_up_to_max options "1.2.3.4" "/x" ∅ (c 0) [c 10; c 59999; c 20]).
  - simpl; lia.
  - simpl; lia.
  - repeat split; simpl; lia.
  - exact I.
  - repeat constructor; simpl; lia.
Defined.

(** The scenario of the specification: policy [{windowMs: 60000,
    maxRequests: 2}], three requests from 1.2.3.4 to /x inside the window and
    a fourth after it. *)
Example scenario_two_per_minute :
  let c t := mkCall (mkOptions 60000 2 None) (request_from "1.2.3.4" "/x")
               fresh_response t in
  let os := (run ∅ [c 0; c 100; c 200; c 60000]).1 in
  next_args <$> os
    = [[None]; [None];
       [Some (ApiError "Too many requests, please try again in 60 seconds" 429 60)];
       [None]] ∧
  (λ o, headers (response_after o) !! "X-RateLimit-Remaining") <$> os
    = [Some "1"; Some "0"; Some "0"; Some "1"] ∧
  (λ o, headers (response_after o) !! "Retry-After") <$> os
    = [None; None; Some "60"; None].
Proof. vm_compute. done. Qed.

(** ** Keys, routes and instances *)

(** C3, counterexample: the key is the concatenation [`${ip}:${req.path}`],
    and the pairs ("10.0.0.1", "/x:/y") and ("10.0.0.1:/x", "/y") differ but
    concatenate to the same key; the first request of the one uses up the
    quota of the other. *)
Lemma key_collision_counterexample :
  let options := mkOptions 60000 1 None in
  let c1 := mkCall options (request_from "10.0.0.1" "/x:/y") fresh_response 0 in
  let c2 := mkCall options (request_from "10.0.0.1:/x" "/y") fresh_response 1 in
  make_key "10.0.0.1" "/x:/y" = make_key "10.0.0.1:/x" "/y" ∧
  next_args (invoke c2 ∅).1 = [None] ∧
  next_args (invoke c2 (invoke c1 ∅).2).1
    = [Some (ApiError "Too many requests, please try again in 60 seconds" 429 60)] ∧
  ¬ distinct_pairs_never_share.
Proof.
  intros options c1 c2.
  assert (next_args (invoke c2 ∅).1 = [None]) as H0 by (vm_compute; reflexivity).
  assert (next_args (invoke c2 (invoke c1 ∅).2).1
    = [Some (ApiError "Too many requests, please try again in 60 seconds" 429 60)])
    as H1 by (vm_compute; reflexivity).
  repeat split; [done..|].
  intros Hclaim.
  destruct (Hclaim c1 c2 "10.0.0.1" "10.0.0.1:/x" ∅) as [_ Hsame];
    [reflexivity|reflexivity|discriminate|].
  rewrite Hsame, H0 in H1. discriminate H1.
Qed.

(** On such identifiers and routes the key determines the pair: the route
    starts at the first slash of the key. *)
Lemma app_nil_string (s : string) : "" +:+ s = s.
Proof. reflexivity. Qed.

Lemma app_cons_string (a : ascii) (s t : string) :
  String a s +:+ t = String a (s +:+ t).
Proof. reflexivity. Qed.

Lemma rooted_app_no_slash (s t p : string) :
  no_slash s = true → rooted p = true → p ≠ s +:+ ":" +:+ t.
Proof.
  intros Hs Hp ->. destruct s as [|a s].
  - by rewrite app_nil_string, app_cons_string in Hp.
  - rewrite app_cons_string in Hp. simpl in Hs, Hp.
    apply andb_prop in Hs as [Ha _]. by rewrite Hp in Ha.
Qed.

Lemma make_key_inj id1 p1 id2 p2 :
  no_slash id1 = true → no_slash id2 = true →
  rooted p1 = true → rooted p2 = true →
  make_key id1 p1 = make_key id2 p2 →
  id1 = id2 ∧ p1 = p2.
Proof.
  unfold make_key. intros H1 H2 Hp1 Hp2. revert id2 H1 H2.
  induction id1 as [|a id1 IH]; intros [|b id2] H1 H2 Hkey;
    repeat (rewrite app_nil_string in Hkey || rewrite app_cons_string in Hkey).
  - by injection Hkey as ->.
  - injection Hkey as _ Hkey. by apply rooted_app_no_slash in Hkey;
      [|by apply andb_prop in H2 as [_ ?]|].
  - injection Hkey as _ Hkey. symmetry in Hkey.
    by apply rooted_app_no_slash in Hkey; [|by apply andb_prop in H1 as [_ ?]|].
  - injection Hkey as -> Hkey.
    apply andb_prop in H1 as [_ H1]. apply andb_prop in H2 as [_ H2].
    by destruct (IH id2 H1 H2 Hkey) as [-> ->].
Qed.

(** C3, amended: for two requests whose identifiers hold no slash and whose
    routes start with one (as the addresses and paths handed over by the
    host do), if the (identifier, route) pairs differ then handling the one
    leaves the entry of the other unchanged, and the decision on the other
    is what it would have been without it. *)
Theorem distinct_pairs_separate_entries (c1 c2 : Call) (id1 id2 : string)
    (store : gmap string RateLimitEntry) :
  identifier (request c1) = Normal id1 →
  identifier (request c2) = Normal id2 →
  no_slash id1 = true → no_slash id2 = true →
  rooted (path (request c1)) = true → rooted (path (request c2)) = true →
  (id1, path (request c1)) ≠ (id2, path (request c2)) →
  same_outcome_and_entry c1 c2 store (make_key id2 (path (request c2))).
Proof.
  intros Hid1 Hid2 Hs1 Hs2 Hp1 Hp2 Hne.
  assert (make_key id1 (path (request c1)) ≠ make_key id2 (path (request c2)))
    as Hkey.
  { intros Heq. apply make_key_inj in Heq as [-> Hp]; [|done..].
    apply Hne. by rewrite Hp. }
  pose proof (invoke_frame c1 id1 Hid1 store _ Hkey) as Hframe.
  split; [done|].
  apply (invoke_live c2 id2 Hid2). by rewrite Hframe.
Qed.

Lemma distinct_pairs_separate_entries_witness :
  let options := mkOptions 60000 1 None in
  let c1 := mkCall options (request_from "10.0.0.1" "/x") fresh_response 0 in
  let c2 := mkCall options (request_from "10.0.0.2" "/x") fresh_response 1 in
  same_outcome_and_entry c1 c2 {[ "10.0.0.1:/x" := mkEntry 1 60000 ]} "10.0.0.2:/x".
Proof.
  intros options c1 c2.
  apply (distinct_pairs_separate_entries c1 c2 "10.0.0.1" "10.0.0.2");
    [reflexivity..|discriminate].
Defined.

(** C2, counterexample: the table is one module-level [Map] and the key
    [`${ip}:${req.path}`] names no instance.  Ten requests through
    [standardLimiter] for an address and path fill the entry that
    [authLimiter] consults for the same address and path, whose first
    request is then denied. *)
Lemma shared_table_counterexample :
  let std := mkCall standardLimiter (request_from "1.2.3.4" "/login") fresh_response 0 in
  let auth := mkCall authLimiter (request_from "1.2.3.4" "/login") fresh_response 1 in
  next_args (invoke auth ∅).1 = [None] ∧
  next_args <$> outcomes_of authLimiter (replicate 10 std ++ [auth])
                  (run ∅ (replicate 10 std ++ [auth])).1
    = [[Some (ApiError
          "Too many authentication attempts, please try again after 15 minutes"
          429 60)]] ∧
  ¬ instances_independent.
Proof.
  intros std auth.
  assert (next_args (invoke auth ∅).1 = [None]) as H0 by (vm_compute; reflexivity).
  assert (next_args <$> outcomes_of authLimiter (replicate 10 std ++ [auth])
                          (run ∅ (replicate 10 std ++ [auth])).1
          = [[Some (ApiError
                "Too many authentication attempts, please try again after 15 minutes"
                429 60)]]) as H1 by (vm_compute; reflexivity).
  repeat split; [done..|].
  intros Hclaim.
  specialize (Hclaim authLimiter standardLimiter ∅ (replicate 10 std ++ [auth])).
  assert ((run ∅ (filter (through authLimiter) (replicate 10 std ++ [auth]))).1
          = [(invoke auth ∅).1]) as H2 by (vm_compute; reflexivity).
  rewrite Hclaim, H2 in H1.
  - cbn [fmap list_fmap] in H1. rewrite H0 in H1. discriminate H1.
  - discriminate.
  - apply Forall_app. split.
    + apply Forall_replicate. by right.
    + repeat constructor.
Qed.

(** Invocations whose keys lie in [K], run among invocations whose keys lie
    outside of it, decide as they do when run alone, from any table that
    agrees on [K]. *)
Lemma run_projection (options : RateLimitOptions) (K : string → Prop) cs :
  Forall (λ c, ∀ k, key_of (request c) = Some k → through options c ↔ K k) cs →
  ∀ store1 store2,
    (∀ k, K k → store1 !! k = store2 !! k) →
    outcomes_of options cs (run store1 cs).1
      = (run store2 (filter (through options) cs)).1.
Proof.
  induction 1 as [|c cs Hc _ IH]; intros store1 store2 Hagree; [done|].
  rewrite run_cons. cbn [fst outcomes_of].
  destruct (decide (through options c)) as [Hsel|Hsel].
  - rewrite filter_cons_True by done. rewrite run_cons. cbn [fst].
    destruct (identifier (request c)) as [id|err] eqn:Hid.
    + assert (K (make_key id (path (request c)))) as HK.
      { apply Hc; [|done]. apply key_of_Some. by exists id. }
      destruct (invoke_live c id Hid store1 store2) as [-> Hkey].
      { by rewrite Hagree. }
      f_equal. apply IH. intros k Hk.
      destruct (decide (make_key id (path (request c)) = k)) as [<-|Hne]; [done|].
      rewrite !(invoke_frame c id Hid _ k Hne). by apply Hagree.
    + rewrite !(invoke_unresolved c _ err Hid). cbn [fst snd].
      f_equal. by apply IH.
  - rewrite filter_cons_False by done. apply IH. intros k Hk.
    rewrite invoke_other_key; [by apply Hagree|].
    intros Hkey. apply Hsel. by apply (Hc k).
Qed.

(** One side of C2: the decisions of [a] among invocations of [a] and [b]
    that share no key. *)
Lemma separate_keys_one_side
    (a b : RateLimitOptions) (store : gmap string RateLimitEntry) (cs : list Call) :
  Forall (λ c, through a c ∨ through b c) cs →
  (∀ c1 c2 k, c1 ∈ cs → c2 ∈ cs → through a c1 → through b c2 →
     key_of (request c1) = Some k → key_of (request c2) ≠ Some k) →
  outcomes_of a cs (run store cs).1 = (run store (filter (through a) cs)).1.
Proof.
  intros Hcs Hsep.
  apply (run_projection a
    (λ k, ∃ c, c ∈ cs ∧ through a c ∧ key_of (request c) = Some k)); [|done].
  apply Forall_forall. intros c Hin k Hk. split.
  - intros Ha. by exists c.
  - intros (c1 & Hin1 & Ha1 & Hk1).
    destruct (proj1 (Forall_forall _ _) Hcs c Hin) as [Ha|Hb]; [done|].
    by destruct (Hsep c1 c k Hin1 Hin Ha1 Hb Hk1).
Qed.

(** C2, amended: all instances count in the one module-level table, under
    the key string [`${ip}:${req.path}`], which names no instance; their
    counters are independent where their key strings are.  For any
    interleaving of invocations through two instances in which no
    invocation through the one derives the same key string as an
    invocation through the other, the decisions of each instance are those
    it would take if the invocations of the other had not happened. *)
Theorem instances_on_separate_keys_independent
    (a b : RateLimitOptions) (store : gmap string RateLimitEntry) (cs : list Call) :
  a ≠ b →
  Forall (λ c, through a c ∨ through b c) cs →
  (∀ c1 c2 k, c1 ∈ cs → c2 ∈ cs → through a c1 → through b c2 →
     key_of (request c1) = Some k → key_of (request c2) ≠ Some k) →
  outcomes_of a cs (run store cs).1 = (run store (filter (through a) cs)).1 ∧
  outcomes_of b cs (run store cs).1 = (run store (filter (through b) cs)).1.
Proof.
  intros _ Hcs Hsep. split.
  - by apply (separate_keys_one_side a b).
  - apply (separate_keys_one_side b a).
    + apply (Forall_impl _ _ _ Hcs). intros c [?|?]; [by right|by left].
    + intros c1 c2 k Hin1 Hin2 Hb Ha Hk1 Hk2.
      by destruct (Hsep c2 c1 k Hin2 Hin1 Ha Hb Hk2).
Qed.

Lemma instances_on_separate_keys_independent_witness :
  let std p := mkCall standardLimiter (request_from "1.2.3.4" p) fresh_response 0 in
  let auth := mkCall authLimiter (request_from "1.2.3.4" "/login") fresh_response 1 in
  let cs := [std "/courses"; auth; std "/courses"; auth] in
  outcomes_of authLimiter cs (run ∅ cs).1
    = (run ∅ (filter (through authLimiter) cs)).1 ∧
  outcomes_of standardLimiter cs (run ∅ cs).1
    = (run ∅ (filter (through standardLimiter) cs)).1.
Proof.
  intros std auth cs.
  apply (instances_on_separate_keys_independent authLimiter standardLimiter ∅ cs).
  - discriminate.
  - repeat constructor; (by left) || (by right).
  - intros c1 c2 k Hin1 Hin2 Ha Hb Hk1 Hk2.
    assert (c1 = auth) as ->.
    { repeat (apply elem_of_cons in Hin1 as [->|Hin1]; try done);
        by apply elem_of_nil in Hin1. }
    assert (c2 = std "/courses") as ->.
    { repeat (apply elem_of_cons in Hin2 as [->|Hin2]; try done);
        by apply elem_of_nil in Hin2. }
    vm_compute in Hk1, Hk2. congruence.
Defined.

(** * Further properties of the middleware *)

(** ** What one invocation writes *)

(** Whenever the identifier resolves, also when [setHeader] fails
    afterwards, the table is updated at the request's key and nowhere
    else: an open window counts one more, anything else is replaced by a
    fresh window. *)
Lemma invoke_store c id store :
  identifier (request c) = Normal id →
  (invoke c store).2 =
    <[make_key id (path (request c)) :=
        match live (time c) (store !! make_key id (path (request c))) with
        | Some e => mkEntry (count e + 1) (resetAt e)
        | None => mkEntry 1 (time c + windowMs (limiter c))
        end]> store.
Proof.
  intros Hid. destruct (headersSent (response c)) eqn:Hsent.
  - by rewrite (invoke_headers_sent c id Hid store Hsent).
  - destruct (live (time c) (store !! make_key id (path (request c))))
      as [e|] eqn:Hl.
    + by rewrite (invoke_active c id Hid store e Hsent Hl).
    + by rewrite (invoke_fresh c id Hid store Hsent Hl).
Qed.

Lemma run_app store cs1 cs2 :
  run store (cs1 ++ cs2) =
    ((run store cs1).1 ++ (run (run store cs1).2 cs2).1,
     (run (run store cs1).2 cs2).2).
Proof.
  revert store. induction cs1 as [|c cs1 IH]; intros store.
  - cbn [app run fst snd]. by destruct (run store cs2).
  - rewrite <-app_comm_cons, !run_cons, IH. done.
Qed.

(** X1: a request whose identifier cannot be resolved (the getter raises)
    leaves the table and the response exactly as they were: nothing is
    counted, no header is set, and the raised value is handed to [next]. *)
Theorem unresolved_request_leaves_no_trace (c : Call)
    (store : gmap string RateLimitEntry) (err : JsError) :
  identifier (request c) = Throw err →
  invoke c store = (mkOutcome (Normal ()) (response c) [Some err], store).
Proof. apply invoke_unresolved. Qed.

Lemma unresolved_request_leaves_no_trace_witness :
  let c := mkCall authLimiter (mkRequest (inr None) (inl (Thrown "TypeError")) "/login")
             fresh_response 7 in
  let store : gmap string RateLimitEntry := {[ "unknown:/login" := mkEntry 3 900 ]} in
  invoke c store
    = (mkOutcome (Normal ()) fresh_response [Some (Thrown "TypeError")], store).
Proof.
  intros c store.
  apply (unresolved_request_leaves_no_trace c store (Thrown "TypeError")).
  reflexivity.
Defined.

(** X2: the entry is written before the first header is set, so a request
    whose response no longer accepts headers is counted all the same (a
    fresh window is opened, or the open one counts one more), while the
    response stays as it was and [next] receives the failure of
    [setHeader] instead of a decision. *)
Theorem headers_sent_request_is_counted (c : Call) (id : string)
    (store : gmap string RateLimitEntry) :
  identifier (request c) = Normal id →
  headersSent (response c) = true →
  (invoke c store).1
    = mkOutcome (Normal ()) (response c) [Some (Thrown "ERR_HTTP_HEADERS_SENT")] ∧
  (invoke c store).2 !! make_key id (path (request c))
    = Some match store !! make_key id (path (request c)) with
           | Some e => if resetAt e <=? time c
                       then mkEntry 1 (time c + windowMs (limiter c))
                       else mkEntry (count e + 1) (resetAt e)
           | None => mkEntry 1 (time c + windowMs (limiter c))
           end.
Proof.
  intros Hid Hsent. rewrite (invoke_headers_sent c id Hid store Hsent).
  cbn [fst snd]. split; [done|]. rewrite lookup_insert_eq. f_equal.
  destruct (store !! make_key id (path (request c))) as [e|]; [|done].
  simpl. by destruct (resetAt e <=? time c).
Qed.

Lemma headers_sent_request_is_counted_witness :
  let c := mkCall authLimiter (request_from "1.2.3.4" "/login")
             (mkResponse true ∅) 7 in
  let store : gmap string RateLimitEntry := {[ "1.2.3.4:/login" := mkEntry 3 900 ]} in
  (invoke c store).1
    = mkOutcome (Normal ()) (mkResponse true ∅) [Some (Thrown "ERR_HTTP_HEADERS_SENT")] ∧
  (invoke c store).2 !! "1.2.3.4:/login" = Some (mkEntry 4 900).
Proof.
  intros c store.
  apply (headers_sent_request_is_counted c "1.2.3.4" store); reflexivity.
Defined.

(** ** Accounting inside an open window *)

Lemma run_counts id p closes cs :
  Forall (λ c, identifier (request c) = Normal id ∧ path (request c) = p ∧
               time c < closes) cs →
  ∀ store k,
    store !! make_key id p = Some (mkEntry k closes) →
    (run store cs).2 !! make_key id p
      = Some (mkEntry (k + Z.of_nat (length cs)) closes).
Proof.
  induction 1 as [|c cs (Hid & Hpath & Htime) _ IH]; intros store k Hentry.
  - cbn [run snd length]. rewrite Hentry. do 2 f_equal. lia.
  - rewrite run_cons. cbn [snd].
    rewrite (IH _ (k + 1)).
    + do 2 f_equal. rewrite length_cons. lia.
    + rewrite (invoke_store c id store Hid), Hpath, Hentry. simpl.
      rewrite (proj2 (Z.leb_gt _ _)) by done. apply lookup_insert_eq.
Qed.

(** X3: while a window is open, every request for its key adds exactly one
    to the stored count and leaves [resetAt] alone, whether the request is
    admitted or denied, whatever instance it goes through and whether or
    not its headers can be set: after [n] such requests the entry holds
    [count + n] and the same [resetAt].  Denied requests keep counting and
    never extend the window. *)
Theorem open_window_counts_every_request (id p : string) (closes k : Z)
    (store : gmap string RateLimitEntry) (cs : list Call) :
  Forall (λ c, identifier (request c) = Normal id ∧ path (request c) = p ∧
               time c < closes) cs →
  store !! make_key id p = Some (mkEntry k closes) →
  (run store cs).2 !! make_key id p
    = Some (mkEntry (k + Z.of_nat (length cs)) closes).
Proof. intros Hcs Hentry. by apply run_counts. Qed.

Lemma open_window_counts_every_request_witness :
  let c l t := mkCall l (request_from "1.2.3.4" "/x") fresh_response t in
  let sent := mkCall authLimiter (request_from "1.2.3.4" "/x") (mkResponse true ∅) 8 in
  let store : gmap string RateLimitEntry := {[ "1.2.3.4:/x" := mkEntry 10 900 ]} in
  (run store [c authLimiter 5; c standardLimiter 6; sent]).2 !! "1.2.3.4:/x"
    = Some (mkEntry 13 900).
Proof.
  intros c sent store.
  apply (open_window_counts_every_request "1.2.3.4" "/x" 900 10 store
           [c authLimiter 5; c standardLimiter 6; sent]).
  - repeat constructor; simpl; lia.
  - reflexivity.
Defined.

(** ** The size of the table *)

Lemma invoke_dom c store :
  dom (invoke c store).2 =
    match key_of (request c) with
    | Some k => {[ k ]} ∪ dom store
    | None => dom store
    end.
Proof.
  unfold key_of. destruct (identifier (request c)) as [id|err] eqn:Hid.
  - rewrite (invoke_store c id store Hid). apply dom_insert_L.
  - by rewrite (invoke_unresolved c store err Hid).
Qed.

(** X4: the handler never removes an entry, and adds one for every key it
    is invoked on: after any sequence of invocations the keys of the table
    are the keys it had together with the keys of the requests whose
    identifier resolved.  Only the sweep makes the table smaller. *)
Theorem requests_only_add_keys (store : gmap string RateLimitEntry)
    (cs : list Call) :
  dom (run store cs).2 = dom store ∪ keys_of cs.
Proof.
  revert store. induction cs as [|c cs IH]; intros store.
  - cbn [run snd keys_of]. by rewrite (right_id_L ∅ (∪)).
  - rewrite run_cons. cbn [snd keys_of]. rewrite IH, invoke_dom.
    destruct (key_of (request c)) as [k|]; [|done].
    by rewrite (comm_L (∪) {[ k ]} (dom store)), <-(assoc_L (∪)).
Qed.

(** ** Entries of a running table *)

Lemma invoke_counts_positive c store :
  counts_positive store → counts_positive (invoke c store).2.
Proof.
  intros Hpos k e. destruct (identifier (request c)) as [id|err] eqn:Hid.
  - rewrite (invoke_store c id store Hid).
    destruct (decide (make_key id (path (request c)) = k)) as [<-|Hne].
    + rewrite lookup_insert_eq. intros [= <-].
      destruct (live (time c) (store !! make_key id (path (request c))))
        as [e|] eqn:Hl; cbn [count]; [|lia].
      apply live_Some in Hl as [He _]. apply Hpos in He. lia.
    + rewrite lookup_insert_ne by done. apply Hpos.
  - rewrite (invoke_unresolved c store err Hid). apply Hpos.
Qed.

Lemma cleanup_counts_positive now store :
  counts_positive store → counts_positive (cleanup now store).
Proof.
  intros Hpos k e. rewrite cleanup_live. intros [He _]%live_Some. by apply (Hpos k).
Qed.

Lemma play_counts_positive evs store :
  counts_positive store → counts_positive (play store evs).2.
Proof.
  revert store. induction evs as [|[c|now] evs IH]; intros store Hpos.
  - done.
  - cbn [play]. pose proof (invoke_counts_positive c store Hpos) as Hpos'.
    destruct (invoke c store) as [o store']. cbn [snd] in Hpos'.
    specialize (IH store' Hpos'). by destruct (play store' evs).
  - cbn [play]. apply IH. by apply cleanup_counts_positive.
Qed.

(** X5: in every table the process can reach from its empty start, by
    handler invocations and sweeps in any order and at any clock readings,
    each entry has a count of at least 1: no entry is ever stored, or left
    behind, with a count of zero or less. *)
Theorem reachable_counts_positive (evs : list Event) (k : string)
    (e : RateLimitEntry) :
  (play ∅ evs).2 !! k = Some e → 1 ≤ count e.
Proof. apply (play_counts_positive evs ∅). intros k' e'. by rewrite lookup_empty. Qed.

Lemma reachable_counts_positive_witness :
  let c t := mkCall (mkOptions 1000 0 None) (request_from "1.2.3.4" "/x")
               fresh_response t in
  (play ∅ [Invoke (c 0); Sweep 5; Invoke (c 10)]).2 !! "1.2.3.4:/x"
    = Some (mkEntry 2 1000) ∧
  1 ≤ count (mkEntry 2 1000).
Proof.
  intros c.
  assert ((play ∅ [Invoke (c 0); Sweep 5; Invoke (c 10)]).2 !! "1.2.3.4:/x"
          = Some (mkEntry 2 1000)) as Hreach by (vm_compute; reflexivity).
  split; [exact Hreach|].
  exact (reachable_counts_positive [Invoke (c 0); Sweep 5; Invoke (c 10)]
           "1.2.3.4:/x" (mkEntry 2 1000) Hreach).
Defined.

(** ** Sweeps compose *)

(** X6: two sweeps in a row amount to one sweep at the later of the two
    clock readings; in particular a sweep repeated at the same reading
    changes nothing more, and the order of two sweeps does not matter. *)
Theorem cleanup_twice (store : gmap string RateLimitEntry) (t1 t2 : Z) :
  cleanup t2 (cleanup t1 store) = cleanup (Z.max t1 t2) store.
Proof.
  apply map_eq. intros k. rewrite !cleanup_live.
  destruct (store !! k) as [e|]; [|done]. simpl.
  destruct (Z.leb_spec0 (resetAt e) t1), (Z.leb_spec0 (resetAt e) (Z.max t1 t2));
    simpl; try done; try lia;
    destruct (Z.leb_spec0 (resetAt e) t2); try done; lia.
Qed.

(** ** Sweeps between requests *)

Lemma cleanup_same_live t now store1 store2 :
  same_live t store1 store2 →
  same_live (Z.max t now) (cleanup now store1) store2.
Proof.
  intros Hsame k. rewrite cleanup_live.
  rewrite live_mono by lia.
  rewrite <-(live_mono t (Z.max t now) (store1 !! k)) by lia.
  rewrite Hsame. apply live_mono. lia.
Qed.

Lemma same_live_later t t' store1 store2 :
  t ≤ t' → same_live t store1 store2 → same_live t' store1 store2.
Proof.
  intros Ht Hsame k.
  rewrite <-(live_mono t t' (store1 !! k)), <-(live_mono t t' (store2 !! k)) by done.
  by rewrite Hsame.
Qed.

Lemma timely_later t t' evs : t ≤ t' → timely t' evs → timely t evs.
Proof.
  revert t t'. induction evs as [|[c|now] evs IH]; intros t t' Ht; simpl.
  - done.
  - intros [Hc Hevs]. split; [lia|]. by apply (IH t t').
  - apply IH. lia.
Qed.

Lemma play_same_live evs :
  ∀ t store1 store2,
    timely t evs →
    same_live t store1 store2 →
    (play store1 evs).1 = (run store2 (requests_of evs)).1.
Proof.
  induction evs as [|[c|now] evs IH]; intros t store1 store2 Htimely Hsame.
  - done.
  - destruct Htimely as [Hc Hevs]. cbn [requests_of]. rewrite run_cons.
    destruct (invoke_same_live t c store1 store2 Hc Hsame) as [Hout Hsame'].
    cbn [play]. destruct (invoke c store1) as [o store1']. cbn [fst snd] in *.
    specialize (IH t store1' _ Hevs Hsame').
    destruct (play store1' evs) as [os store1'']. cbn [fst] in *.
    by rewrite Hout, IH.
  - cbn [play requests_of]. apply (IH (Z.max t now)); [done|].
    by apply cleanup_same_live.
Qed.

(** X7: the sweep may fire any number of times, anywhere between
    requests: as long as no request reads a clock behind an earlier sweep,
    every request of the trace gets the outcome (completion, headers, calls
    to [next]) it gets when no sweep ever runs. *)
Theorem sweeps_between_requests_unobservable
    (store : gmap string RateLimitEntry) (t : Z) (evs : list Event) :
  timely t evs →
  (play store evs).1 = (run store (requests_of evs)).1.
Proof. intros Htimely. by apply (play_same_live evs t). Qed.

Lemma sweeps_between_requests_unobservable_witness :
  let c t := mkCall (mkOptions 1000 1 None) (request_from "1.2.3.4" "/x")
               fresh_response t in
  let store : gmap string RateLimitEntry := {[ "1.2.3.4:/x" := mkEntry 1 500 ]} in
  (play store [Sweep 100; Invoke (c 200); Sweep 600; Invoke (c 600); Invoke (c 700)]).1
    = (run store [c 200; c 600; c 700]).1.
Proof.
  intros c store.
  apply (sweeps_between_requests_unobservable store 0
           [Sweep 100; Invoke (c 200); Sweep 600; Invoke (c 600); Invoke (c 700)]).
  simpl. lia.
Defined.

Lemma run_same_live_store t cs store1 store2 :
  Forall (λ c, t ≤ time c) cs →
  same_live t store1 store2 →
  same_live t (run store1 cs).2 (run store2 cs).2.
Proof.
  intros Hcs. revert store1 store2.
  induction Hcs as [|c cs Ht _ IH]; intros store1 store2 Hsame; [done|].
  rewrite !run_cons. cbn [snd].
  destruct (invoke_same_live t c store1 store2 Ht Hsame) as [_ Hsame'].
  by apply IH.
Qed.

(** X8: a sweep before a sequence of requests changes the table they
    leave behind in expired entries only: sweeping both final tables at the
    same clock reading gives the same table. *)
Theorem cleanup_before_requests_same_table
    (store : gmap string RateLimitEntry) (t : Z) (cs : list Call) :
  Forall (λ c, t ≤ time c) cs →
  cleanup t (run (cleanup t store) cs).2 = cleanup t (run store cs).2.
Proof.
  intros Hcs. apply map_eq. intros k. rewrite !cleanup_live.
  apply (run_same_live_store t cs); [done|].
  intros k'. rewrite cleanup_live. by apply live_mono.
Qed.

Lemma cleanup_before_requests_same_table_witness :
  let store : gmap string RateLimitEntry :=
    {[ "1.2.3.4:/x" := mkEntry 2 500; "5.6.7.8:/x" := mkEntry 1 2000 ]} in
  let cs := [ mkCall (mkOptions 1000 2 None) (request_from "5.6.7.8" "/x")
                fresh_response 700 ] in
  cleanup 600 (run (cleanup 600 store) cs).2 = cleanup 600 (run store cs).2.
Proof.
  intros store cs. apply (cleanup_before_requests_same_table store 600 cs).
  repeat constructor; simpl; lia.
Defined.

(** ** Decisions depend on the request's own key only *)

Lemma run_key_projection k cs :
  ∀ store1 store2,
    store1 !! k = store2 !! k →
    outcomes_for k cs (run store1 cs).1
      = (run store2 (filter (for_key k) cs)).1.
Proof.
  induction cs as [|c cs IH]; intros store1 store2 Hagree; [done|].
  rewrite run_cons. cbn [fst outcomes_for].
  destruct (decide (for_key k c)) as [Hsel|Hsel].
  - rewrite filter_cons_True by done. rewrite run_cons. cbn [fst].
    apply key_of_Some in Hsel as (id & Hid & ->).
    destruct (invoke_live c id Hid store1 store2) as [-> Hkey].
    { by rewrite Hagree. }
    f_equal. by apply IH.
  - rewrite filter_cons_False by done. apply IH.
    by rewrite invoke_other_key.
Qed.

(** X9: in any sequence of invocations, of any instances and in any
    interleaving, the outcomes of the requests working on one table key
    are those they have when all other requests are left out: a request is
    never admitted or denied, nor its headers changed, because of traffic
    on another key. *)
Theorem decisions_depend_on_own_key (k : string)
    (store : gmap string RateLimitEntry) (cs : list Call) :
  outcomes_for k cs (run store cs).1 = (run store (filter (for_key k) cs)).1.
Proof. by apply run_key_projection. Qed.

(** ** Keys of requests that differ in one coordinate *)

Lemma length_app_string (s t : string) :
  String.length (s +:+ t) = (String.length s + String.length t)%nat.
Proof.
  induction s as [|a s IH]; [done|].
  rewrite app_cons_string. simpl. by rewrite IH.
Qed.

Lemma make_key_inj_path id p1 p2 : make_key id p1 = make_key id p2 → p1 = p2.
Proof.
  unfold make_key. intros Hkey.
  apply (inj (String.app id)) in Hkey.
  by apply (inj (String.app ":")) in Hkey.
Qed.

Lemma make_key_inj_ip id1 id2 p : make_key id1 p = make_key id2 p → id1 = id2.
Proof.
  unfold make_key. revert id2.
  induction id1 as [|a id1 IH]; intros [|b id2] Hkey.
  - done.
  - apply (f_equal String.length) in Hkey.
    repeat (rewrite length_app_string in Hkey; simpl in Hkey). lia.
  - apply (f_equal String.length) in Hkey.
    repeat (rewrite length_app_string in Hkey; simpl in Hkey). lia.
  - rewrite !app_cons_string in Hkey. injection Hkey as -> Hkey.
    by rewrite (IH id2 Hkey).
Qed.

(** X10: two requests from the same identifier to different routes, or
    from different identifiers to the same route, never share an entry,
    whatever characters the identifiers and routes hold: handling the one
    leaves the entry of the other alone and does not change the decision
    on it. *)
Theorem one_coordinate_apart_separate_entries (c1 c2 : Call) (id1 id2 : string)
    (store : gmap string RateLimitEntry) :
  identifier (request c1) = Normal id1 →
  identifier (request c2) = Normal id2 →
  id1 = id2 ∨ path (request c1) = path (request c2) →
  (id1, path (request c1)) ≠ (id2, path (request c2)) →
  same_outcome_and_entry c1 c2 store (make_key id2 (path (request c2))).
Proof.
  intros Hid1 Hid2 Hsame Hne.
  assert (make_key id1 (path (request c1)) ≠ make_key id2 (path (request c2)))
    as Hkey.
  { intros Heq. apply Hne. destruct Hsame as [->|Hp].
    - by rewrite (make_key_inj_path _ _ _ Heq).
    - rewrite Hp in Heq |- *. by rewrite (make_key_inj_ip _ _ _ Heq). }
  pose proof (invoke_frame c1 id1 Hid1 store _ Hkey) as Hframe.
  split; [done|].
  apply (invoke_live c2 id2 Hid2). by rewrite Hframe.
Qed.

Lemma one_coordinate_apart_separate_entries_witness :
  let options := mkOptions 60000 1 None in
  let c1 := mkCall options (request_from "10.0.0.1" "/x:/y") fresh_response 0 in
  let c2 := mkCall options (request_from "10.0.0.1" "/y") fresh_response 1 in
  same_outcome_and_entry c1 c2 ∅ "10.0.0.1:/y".
Proof.
  intros options c1 c2.
  apply (one_coordinate_apart_separate_entries c1 c2 "10.0.0.1" "10.0.0.1");
    [reflexivity|reflexivity|by left|discriminate].
Defined.

(** ** The response *)

(** X11: the handler touches no header but its own four, header names
    being compared without regard to case as [setHeader] and [getHeader]
    do.  Any other header of the response reads after the invocation what
    it read before, and [Retry-After] itself is left alone unless the
    request is denied (so is it on every admitted request). *)
Theorem other_headers_untouched (c : Call) (store : gmap string RateLimitEntry)
    (name : string) :
  toLowerCase name ≠ "x-ratelimit-limit" →
  toLowerCase name ≠ "x-ratelimit-remaining" →
  toLowerCase name ≠ "x-ratelimit-reset" →
  toLowerCase name ≠ "retry-after" ∨ next_args (invoke c store).1 = [None] →
  headers (response_after (invoke c store).1) !! name
    = headers (response c) !! name.
Proof.
  intros Hl Hr Ht Hretry.
  assert (toLowerCase "X-RateLimit-Limit" ≠ toLowerCase name) as Hl'
    by (intros Heq; apply Hl; by rewrite <-Heq).
  assert (toLowerCase "X-RateLimit-Remaining" ≠ toLowerCase name) as Hr'
    by (intros Heq; apply Hr; by rewrite <-Heq).
  assert (toLowerCase "X-RateLimit-Reset" ≠ toLowerCase name) as Ht'
    by (intros Heq; apply Ht; by rewrite <-Heq).
  destruct (identifier (request c)) as [id|err] eqn:Hid;
    [|by rewrite (invoke_unresolved c store err Hid)].
  destruct (headersSent (response c)) eqn:Hsent;
    [by rewrite (invoke_headers_sent c id Hid store Hsent)|].
  destruct (live (time c) (store !! make_key id (path (request c))))
    as [e|] eqn:Hlive.
  - rewrite (invoke_active c id Hid store e Hsent Hlive) in Hretry |- *.
    destruct (maxRequests (limiter c) <? count e + 1);
      cbn [fst response_after headers next_args] in Hretry |- *;
      unfold quota_headers.
    + destruct Hretry as [Hretry|[=]].
      rewrite headers_lookup_insert_ne
        by (intros Heq; apply Hretry; by rewrite <-Heq).
      by rewrite !headers_lookup_insert_ne by done.
    + by rewrite !headers_lookup_insert_ne by done.
  - rewrite (invoke_fresh c id Hid store Hsent Hlive).
    cbn [fst response_after headers]. unfold quota_headers.
    by rewrite !headers_lookup_insert_ne by done.
Qed.

Lemma other_headers_untouched_witness :
  let res := mkResponse false (<["Retry-After" := "120"]> (<["Vary" := "Origin"]> ∅)) in
  let c := mkCall standardLimiter (request_from "1.2.3.4" "/x") res 0 in
  headers (response_after (invoke c ∅).1) !! "retry-after"
    = headers res !! "retry-after".
Proof.
  intros res c.
  apply (other_headers_untouched c ∅ "retry-after");
    [discriminate|discriminate|discriminate|right; vm_compute; reflexivity].
Defined.

(** A header set under another spelling of one of the four names is
    overwritten: an earlier [retry-after] does not survive a denial. *)
Example denial_overwrites_retry_after :
  let res := mkResponse false (<["retry-after" := "120"]> ∅) in
  let c := mkCall (mkOptions 60000 1 None) (request_from "1.2.3.4" "/x") res 1000 in
  let store : gmap string RateLimitEntry := {[ "1.2.3.4:/x" := mkEntry 1 60000 ]} in
  headers (response_after (invoke c store).1) !! "retry-after" = Some "59".
Proof. vm_compute. reflexivity. Qed.

(** ** The identifier *)

(** X12: an identifier that resolves is never the empty string: an empty
    [req.ip] or [remoteAddress] is passed over like [undefined], down to
    ['unknown'], so no key starts with the separator. *)
Theorem identifier_never_empty (req : Request) (id : string) :
  identifier req = Normal id → id ≠ "".
Proof.
  unfold identifier, resolve_ip, mbind, M_bind, read, or_else, mret, M_ret, throw.
  assert (∀ v, or_string v "unknown" ≠ "") as Hor.
  { intros [s|]; [|done]. unfold or_string, truthy.
    destruct (String.eqb_spec s ""); simpl; done. }
  destruct (ip req) as [err|a]; [done|].
  destruct (truthy a) eqn:Ha; cbn [fst].
  - intros [= <-]. apply Hor.
  - destruct (remoteAddress req) as [err|b]; [done|]. intros [= <-]. apply Hor.
Qed.

Lemma identifier_never_empty_witness :
  let req := mkRequest (inr (Some "")) (inr (Some "9.9.9.9")) "/x" in
  identifier req = Normal "9.9.9.9" ∧ "9.9.9.9" ≠ "".
Proof.
  intros req. split; [reflexivity|].
  apply (identifier_never_empty req). reflexivity.
Defined.

(** X13: [||] short-circuits: when [req.ip] is a non-empty string it is
    the identifier and [req.socket.remoteAddress] is not read, so a
    failure that reading it would raise does not occur; the address of the
    socket is the identifier only when [req.ip] is [undefined] or empty. *)
Theorem identifier_prefers_ip (req : Request) (a : string) :
  ip req = inr (Some a) → a ≠ "" → identifier req = Normal a.
Proof.
  intros Hip Ha.
  unfold identifier, resolve_ip, mbind, M_bind, read, or_else, mret, M_ret.
  rewrite Hip. unfold or_string, truthy.
  apply String.eqb_neq in Ha. rewrite Ha. simpl. by rewrite Ha.
Qed.

Lemma identifier_prefers_ip_witness :
  identifier (mkRequest (inr (Some "1.2.3.4")) (inl (Thrown "TypeError")) "/x")
    = Normal "1.2.3.4".
Proof.
  apply (identifier_prefers_ip
           (mkRequest (inr (Some "1.2.3.4")) (inl (Thrown "TypeError")) "/x")
           "1.2.3.4"); [reflexivity|discriminate].
Defined.

(** ** The decision *)

(** X14: the decision on a request that is accounted for, in full: it is
    admitted exactly when its key has no entry, or an entry whose window has
    closed ([resetAt <= now]), or an open window whose count stays within
    [maxRequests] once this request is added; it is denied with status 429
    exactly when the window is open and the count would exceed
    [maxRequests]. *)
Theorem admission_decision (c : Call) (id : string)
    (store : gmap string RateLimitEntry) :
  identifier (request c) = Normal id →
  headersSent (response c) = false →
  (admitted (invoke c store).1 ↔
     from_option (λ e, resetAt e ≤ time c ∨ count e + 1 ≤ maxRequests (limiter c))
       True (store !! make_key id (path (request c)))) ∧
  (denied_429 (invoke c store).1 ↔
     ∃ e, store !! make_key id (path (request c)) = Some e ∧
          time c < resetAt e ∧ maxRequests (limiter c) < count e + 1).
Proof.
  intros Hid Hsent.
  destruct (live (time c) (store !! make_key id (path (request c))))
    as [e|] eqn:Hl.
  - rewrite (invoke_active c id Hid store e Hsent Hl). cbn [fst].
    apply live_Some in Hl as [He Hopen]. rewrite He. cbn [from_option].
    destruct (Z.ltb_spec (maxRequests (limiter c)) (count e + 1)) as [Hover|Hin].
    + split; split.
      * by intros [_ [=]].
      * intros [?|?]; lia.
      * intros _. by exists e.
      * intros _. split; [done|]. by eexists _, _.
    + split; split.
      * intros _. by right.
      * done.
      * by intros [_ (msg & secs & [=])].
      * intros (e' & [= <-] & _ & ?). lia.
  - rewrite (invoke_fresh c id Hid store Hsent Hl). cbn [fst].
    apply live_None in Hl. split; split.
    + intros _.
      destruct (store !! make_key id (path (request c))) as [e|]; [|done].
      by left.
    + done.
    + by intros [_ (msg & secs & [=])].
    + intros (e & He & Hopen & _). rewrite He in Hl. simpl in Hl. lia.
Qed.

Lemma admission_decision_witness :
  let c := mkCall authLimiter (request_from "1.2.3.4" "/login") fresh_response 5 in
  let store : gmap string RateLimitEntry := {[ "1.2.3.4:/login" := mkEntry 10 900 ]} in
  denied_429 (invoke c store).1.
Proof.
  intros c store.
  apply (proj2 (admission_decision c "1.2.3.4" store eq_refl eq_refl)).
  exists (mkEntry 10 900). repeat split; simpl; lia.
Defined.

(** ** Windows in a row *)

Lemma run_open_window_admitted options id p closes cs store k :
  Forall (in_window options id p closes) cs →
  store !! make_key id p = Some (mkEntry k closes) →
  k + Z.of_nat (length cs) ≤ maxRequests options →
  Forall admitted (run store cs).1.
Proof.
  intros Hcs Hentry Hroom. apply Forall_lookup. intros n o Hn.
  pose proof (lookup_lt_Some _ _ _ Hn) as Hlt. rewrite run_length in Hlt.
  destruct (run_open_window options id p closes cs Hcs store k n o Hentry Hn)
    as [Hadm _].
  apply Hadm. lia.
Qed.

Lemma in_window_counted options id p closes cs :
  Forall (in_window options id p closes) cs →
  Forall (λ c, identifier (request c) = Normal id ∧ path (request c) = p ∧
               time c < closes) cs.
Proof.
  intros Hcs. apply (Forall_impl _ _ _ Hcs). by intros c (_ & ? & ? & _ & ?).
Qed.

Lemma run_window_admitted options id p store first rest :
  in_window options id p (time first + windowMs options) first →
  from_option (λ e, resetAt e ≤ time first) True (store !! make_key id p) →
  Forall (in_window options id p (time first + windowMs options)) rest →
  Z.of_nat (length (first :: rest)) ≤ maxRequests options →
  Forall admitted (run store (first :: rest)).1 ∧
  (run store (first :: rest)).2 !! make_key id p
    = Some (mkEntry (Z.of_nat (length (first :: rest)))
              (time first + windowMs options)).
Proof.
  intros (Hopt & Hid & Hpath & Hsent & _) Hstart Hrest Hroom.
  rewrite length_cons in Hroom |- *. rewrite run_cons. cbn [fst snd].
  assert (live (time first) (store !! make_key id (path (request first))) = None)
    as Hl by (apply live_None; by rewrite Hpath).
  pose proof (invoke_fresh first id Hid store Hsent Hl) as Hinv.
  rewrite Hopt, Hpath in Hinv.
  assert ((invoke first store).2 !! make_key id p
          = Some (mkEntry 1 (time first + windowMs options))) as Hentry.
  { rewrite Hinv. apply lookup_insert_eq. }
  split.
  - constructor; [by rewrite Hinv|].
    apply (run_open_window_admitted options id p
             (time first + windowMs options) rest _ 1); [done..|lia].
  - rewrite (run_counts id p (time first + windowMs options) rest
               (in_window_counted _ _ _ _ _ Hrest) _ 1 Hentry).
    do 2 f_equal. lia.
Qed.

(** X15: the windows are fixed, not sliding: a full quota at the end of
    one window and a full quota at the start of the next are all admitted.
    If up to [maxRequests] requests for a key open and fill a window, and up
    to [maxRequests] more arrive from its [resetAt] on, inside the window
    the first of them opens, then every one of them is admitted, however
    close in time the two groups are. *)
Theorem quota_renews_at_boundary (options : RateLimitOptions) (id p : string)
    (store : gmap string RateLimitEntry)
    (first : Call) (rest : list Call) (second : Call) (rest' : list Call) :
  in_window options id p (time first + windowMs options) first →
  from_option (λ e, resetAt e ≤ time first) True (store !! make_key id p) →
  Forall (in_window options id p (time first + windowMs options)) rest →
  Z.of_nat (length (first :: rest)) ≤ maxRequests options →
  time first + windowMs options ≤ time second →
  in_window options id p (time second + windowMs options) second →
  Forall (in_window options id p (time second + windowMs options)) rest' →
  Z.of_nat (length (second :: rest')) ≤ maxRequests options →
  Forall admitted (run store ((first :: rest) ++ second :: rest')).1.
Proof.
  intros Hfirst Hstart Hrest Hroom Hnext Hsecond Hrest' Hroom'.
  destruct (run_window_admitted options id p store first rest
              Hfirst Hstart Hrest Hroom) as [Hadm Hentry].
  rewrite run_app. cbn [fst]. apply Forall_app. split; [done|].
  apply (run_window_admitted options id p); [done| |done..].
  rewrite Hentry. simpl. done.
Qed.

Lemma quota_renews_at_boundary_witness :
  let options := mkOptions 60000 2 None in
  let c t := mkCall options (request_from "1.2.3.4" "/x") fresh_response t in
  Forall admitted (run ∅ ([c 0; c 59999] ++ [c 60000; c 60000])).1.
Proof.
  intros options c.
  apply (quota_renews_at_boundary options "1.2.3.4" "/x" ∅
           (c 0) [c 59999] (c 60000) [c 60000]).
  - repeat split; simpl; lia.
  - exact I.
  - repeat constructor; simpl; lia.
  - simpl; lia.
  - simpl; lia.
  - repeat split; simpl; lia.
  - repeat constructor; simpl; lia.
  - simpl; lia.
Defined.

(** ** The advised delay *)

Lemma ceil_div_mono (d1 d2 k : Z) : 0 < k → d1 ≤ d2 → ceil_div d1 k ≤ ceil_div d2 k.
Proof.
  intros Hk Hd. unfold ceil_div.
  pose proof (Z.div_le_mono (- d2) (- d1) k Hk ltac:(lia)). lia.
Qed.

Lemma run_open_window_delay options id p opened cs :
  Forall (λ c, in_window options id p (opened + windowMs options) c ∧
               opened ≤ time c) cs →
  ∀ store k (n : nat) o msg secs,
    store !! make_key id p = Some (mkEntry k (opened + windowMs options)) →
    (run store cs).1 !! n = Some o →
    next_args o = [Some (ApiError msg 429 secs)] →
    1 ≤ secs ≤ ceil_div (windowMs options) 1000.
Proof.
  induction 1 as [|c cs [(Hopt & Hid & Hpath & Hsent & Htime) Hafter] _ IH];
    intros store k n o msg secs Hentry Hn Hdenied; [done|].
  rewrite run_cons in Hn. cbn [fst] in Hn.
  assert (live (time c) (store !! make_key id (path (request c)))
          = Some (mkEntry k (opened + windowMs options))) as Hl.
  { apply live_Some. by rewrite Hpath. }
  pose proof (invoke_active c id Hid store _ Hsent Hl) as Hinv.
  cbn [count resetAt] in Hinv. rewrite Hopt, Hpath in Hinv.
  destruct n as [|n].
  - injection Hn as <-. rewrite Hinv in Hdenied. cbn [fst] in Hdenied.
    destruct (maxRequests options <? k + 1); cbn [next_args] in Hdenied;
      [|discriminate Hdenied].
    injection Hdenied as _ <-. split.
    + apply ceil_div_pos; lia.
    + apply ceil_div_mono; lia.
  - cbn [lookup list_lookup] in Hn.
    apply (IH (invoke c store).2 (k + 1) n o msg secs); [|done..].
    rewrite Hinv. cbn [snd]. apply lookup_insert_eq.
Qed.

(** X16: when a window is opened by an instance and its later requests
    read clocks not behind the opening one, every denial in that window
    advises a delay ([retryAfter], and so [Retry-After]) of at least one
    second and at most the window length in seconds, rounded up. *)
Theorem retry_after_within_window (options : RateLimitOptions) (id p : string)
    (store : gmap string RateLimitEntry) (first : Call) (rest : list Call)
    (n : nat) (o : Outcome) (msg : string) (secs : Z) :
  in_window options id p (time first + windowMs options) first →
  from_option (λ e, resetAt e ≤ time first) True (store !! make_key id p) →
  Forall (λ c, in_window options id p (time first + windowMs options) c ∧
               time first ≤ time c) rest →
  (run store (first :: rest)).1 !! n = Some o →
  next_args o = [Some (ApiError msg 429 secs)] →
  1 ≤ secs ≤ ceil_div (windowMs options) 1000.
Proof.
  intros (Hopt & Hid & Hpath & Hsent & _) Hstart Hrest Hn Hdenied.
  rewrite run_cons in Hn. cbn [fst] in Hn.
  assert (live (time first) (store !! make_key id (path (request first))) = None)
    as Hl by (apply live_None; by rewrite Hpath).
  pose proof (invoke_fresh first id Hid store Hsent Hl) as Hinv.
  rewrite Hopt, Hpath in Hinv.
  destruct n as [|n].
  - injection Hn as <-. rewrite Hinv in Hdenied. discriminate Hdenied.
  - cbn [lookup list_lookup] in Hn.
    apply (run_open_window_delay options id p (time first) rest Hrest
             (invoke first store).2 1 n o msg secs); [|done..].
    rewrite Hinv. cbn [snd]. apply lookup_insert_eq.
Qed.

Lemma retry_after_within_window_witness :
  let options := mkOptions 2500 1 None in
  let c t := mkCall options (request_from "1.2.3.4" "/x") fresh_response t in
  1 ≤ 3 ≤ ceil_div 2500 1000.
Proof.
  intros options c.
  apply (retry_after_within_window options "1.2.3.4" "/x" ∅ (c 0) [c 1] 1
           (invoke (c 1) (invoke (c 0) ∅).2).1
           "Too many requests, please try again in 3 seconds" 3).
  - repeat split; simpl; lia.
  - exact I.
  - repeat constructor; simpl; lia.
  - vm_compute. reflexivity.
  - vm_compute. reflexivity.
Defined.
